(** * The Solution analyzer of MCF_lib_ext.py

    A shallow embedding of [class Solution] (reconstruction of transport legs
    and request aggregates from path-based flows, cost model, metrics and the
    two validation checks) and of the loaders that feed it.

    Numbers.  Python numbers are rendered as exact rationals [Qc]; the value
    of [math.ceil] is an integer [Z].  The only non-finite value the code
    produces on purpose, [float('inf')], has a constructor of its own.
    Where the code adds the same numbers in two groupings, which agree on
    exact numbers only, the lines concerned are rendered a second time in
    [AsComputed], over numbers of which nothing is assumed, and are evaluated
    there on binary64 floats.
    Dictionaries are finite maps [gmap]; tables that the code iterates in row
    order are association lists.  Exceptions are values of [result]. *)

From Stdlib Require Import QArith Qcanon Qround Lqa PrimFloat.
From stdpp Require Import gmap list fin_maps strings.

Local Open Scope Qc_scope.

(** ** Exceptions *)

Inductive PyExc :=
  | KeyError
  | IndexError
  | ValueError
  | ZeroDivisionError
  | FileNotFoundError.

Inductive result (A : Type) :=
  | Ok (a : A)
  | Raise (e : PyExc).
Arguments Ok {A} a.
Arguments Raise {A} e.

Global Instance result_ret : MRet result := @Ok.
Global Instance result_bind : MBind result := λ A B f r,
  match r with
  | Ok a => f a
  | Raise e => Raise e
  end.

(** ** Arithmetic *)

(** [a / b]: raises [ZeroDivisionError] on a zero divisor. *)
Definition pydiv (a b : Qc) : result Qc :=
  if decide (b = 0) then Raise ZeroDivisionError else Ok (a / b).

(** [math.ceil]. *)
Definition ceil (q : Qc) : Z := Qceiling q.

Definition Qcabs (q : Qc) : Qc := if decide (q < 0) then - q else q.

Definition Qcmin (a b : Qc) : Qc := if decide (b < a) then b else a.

(** [sum(...)] over numbers; they are exact, so the order of the additions
    does not show. *)
Definition Qcsum (l : list Qc) : Qc := foldr Qcplus 0 l.
Definition Zsum (l : list Z) : Z := foldr Z.add 0%Z l.

(** Decimal literals: [dec n k] is [n / 10^k]. *)
Definition dec (n : Z) (k : nat) : Qc :=
  Q2Qc (n # Nat.iter k (Pos.mul 10) 1%positive).

(** ** Data *)

Section Analyzer.
Context {Node : Type} `{Countable Node}.

(** A path dictionary: keys ['src'], ['dst'], ['volume'], ['path_nodes']. *)
Record Path := {
  src : Node;
  dst : Node;
  volume : Qc;
  path_nodes : list Node
}.

(** A row of [matrix_df], indexed by [(src, dst)]. *)
Record MatrixRow := {
  m_distance : Qc;
  m_time : Qc;
  m_price_per_km : Qc
}.

(** A row of [offices_df], indexed by [office_id]. *)
Record OfficeRow := {
  transfer_price : Qc;
  transfer_max : Qc
}.

(** A leg dictionary while volumes are being accumulated. *)
Record LegAcc := {
  acc_distance : Qc;
  acc_time : Qc;
  acc_cost_per_km : Qc;
  acc_sum_volume : Qc;
  acc_reqs : list ((Node * Node) * Qc)
}.

(** A leg dictionary once ['vehicles'] and ['sum_cost'] have been set. *)
Record Leg := {
  distance : Qc;
  time : Qc;
  cost_per_km : Qc;
  sum_volume : Qc;
  leg_reqs : list ((Node * Node) * Qc);
  vehicles : Z;
  sum_cost : Qc
}.

(** [logger.critical] lines of the leg reconstruction, by edge. *)
Definition Log := list (Node * Node).

(** ** _reconstruct_reqs_from_paths *)

Definition add_req (reqs : gmap (Node * Node) Qc) (path : Path)
    : gmap (Node * Node) Qc :=
  <[(src path, dst path) := default 0 (reqs !! (src path, dst path)) + volume path]> reqs.

Definition _reconstruct_reqs_from_paths (paths : list Path)
    : gmap (Node * Node) Qc :=
  foldl add_req ∅ paths.

(** ** _reconstruct_transport_legs_from_paths *)

(** [[(path_nodes[i], path_nodes[i+1]) for i in range(len(path_nodes)-1)]] *)
Fixpoint edges (path_nodes : list Node) : list (Node * Node) :=
  match path_nodes with
  | s :: (t :: _) as rest => (s, t) :: edges rest
  | _ => []
  end.

Definition new_leg (row : MatrixRow) : LegAcc :=
  {| acc_distance := m_distance row;
     acc_time := m_time row;
     acc_cost_per_km := m_price_per_km row;
     acc_sum_volume := 0;
     acc_reqs := [] |}.

Definition leg_add (leg : LegAcc) (req : (Node * Node) * Qc) : LegAcc :=
  {| acc_distance := acc_distance leg;
     acc_time := acc_time leg;
     acc_cost_per_km := acc_cost_per_km leg;
     acc_sum_volume := acc_sum_volume leg + req.2;
     acc_reqs := acc_reqs leg ++ [req] |}.

(** The body of [for (s, t) in edges]. *)
Definition add_edge (matrix_df : gmap (Node * Node) MatrixRow)
    (req : (Node * Node) * Qc)
    (st : gmap (Node * Node) LegAcc * Log) (key : Node * Node)
    : gmap (Node * Node) LegAcc * Log :=
  match st.1 !! key with
  | Some leg => (<[key := leg_add leg req]> st.1, st.2)
  | None =>
      match matrix_df !! key with
      | Some row => (<[key := leg_add (new_leg row) req]> st.1, st.2)
      | None => (st.1, st.2 ++ [key])
      end
  end.

(** The body of [for path in self.paths]. *)
Definition add_path (matrix_df : gmap (Node * Node) MatrixRow)
    (st : gmap (Node * Node) LegAcc * Log) (path : Path)
    : gmap (Node * Node) LegAcc * Log :=
  foldl (add_edge matrix_df ((src path, dst path), volume path)) st
        (edges (path_nodes path)).

Definition accumulate_legs (matrix_df : gmap (Node * Node) MatrixRow)
    (paths : list Path) : gmap (Node * Node) LegAcc * Log :=
  foldl (add_path matrix_df) (∅, []) paths.

(** The body of [for leg in transport_legs.values()]. *)
Definition set_vehicles (vehicle_capacity : Qc) (leg : LegAcc) : result Leg :=
  q ← pydiv (acc_sum_volume leg) vehicle_capacity;
  let n := ceil q in
  Ok {| distance := acc_distance leg;
        time := acc_time leg;
        cost_per_km := acc_cost_per_km leg;
        sum_volume := acc_sum_volume leg;
        leg_reqs := acc_reqs leg;
        vehicles := n;
        sum_cost := Qc_of_Z n * acc_cost_per_km leg * acc_distance leg / Qc_of_Z 1000 |}.

Definition set_all_vehicles (vehicle_capacity : Qc)
    (legs : gmap (Node * Node) LegAcc) : result (gmap (Node * Node) Leg) :=
  map_fold (λ key leg acc,
              done ← acc;
              leg' ← set_vehicles vehicle_capacity leg;
              Ok (<[key := leg']> done))
           (Ok ∅) legs.

Definition _reconstruct_transport_legs_from_paths
    (paths : list Path) (vehicle_capacity : Qc)
    (matrix_df : gmap (Node * Node) MatrixRow)
    : result (gmap (Node * Node) Leg * Log) :=
  let st := accumulate_legs matrix_df paths in
  legs ← set_all_vehicles vehicle_capacity st.1;
  Ok (legs, st.2).

(** ** _calculate_transfer_costs *)

(** [offices_df.index] membership and [offices_df.loc[node, ...]]: the row
    of the table whose [office_id] is [node]. *)
Fixpoint office_row (offices : list (Node * OfficeRow)) (node : Node)
    : option OfficeRow :=
  match offices with
  | [] => None
  | (node_id, row) :: rest =>
      if decide (node_id = node) then Some row else office_row rest node
  end.

(** [path_nodes[1:-1] if len(path_nodes) > 2 else []] *)
Definition transit_nodes (path_nodes : list Node) : list Node :=
  if decide (2 < length path_nodes)%nat
  then removelast (tail path_nodes)
  else [].

Record TransferAcc := {
  total_transfer_cost : Qc;
  node_in_flow : gmap Node Qc;
  node_out_flow : gmap Node Qc
}.

(** [d[node] += volume] on a [defaultdict(float)]. *)
Definition add_flow (d : gmap Node Qc) (node : Node) (volume : Qc)
    : gmap Node Qc :=
  <[node := default 0 (d !! node) + volume]> d.

(** The body of [for node in transit_nodes]. *)
Definition visit_transit (offices_df : option (list (Node * OfficeRow)))
    (volume : Qc) (st : TransferAcc) (node : Node) : TransferAcc :=
  {| total_transfer_cost :=
       match offices_df with
       | Some offices =>
           match office_row offices node with
           | Some row => total_transfer_cost st + volume * transfer_price row
           | None => total_transfer_cost st
           end
       | None => total_transfer_cost st
       end;
     node_in_flow := add_flow (node_in_flow st) node volume;
     node_out_flow := add_flow (node_out_flow st) node volume |}.

Definition visit_path (offices_df : option (list (Node * OfficeRow)))
    (st : TransferAcc) (path : Path) : TransferAcc :=
  foldl (visit_transit offices_df (volume path)) st
        (transit_nodes (path_nodes path)).

Inductive Direction := Inbound | Outbound.

Global Instance Direction_eq_dec : EqDecision Direction.
Proof. solve_decision. Defined.

(** A capacity finding: the values interpolated into the message
    ["Узел {node_id}: входящий/исходящий поток {flow} > {transfer_max}"]. *)
Record Violation := {
  v_node : Node;
  v_direction : Direction;
  v_flow : Qc;
  v_transfer_max : Qc
}.

(** One [if node_id in d and d[node_id] > transfer_max: append(...)]. *)
Definition check_flow (d : gmap Node Qc) (dir : Direction)
    (node_id : Node) (transfer_max : Qc) : list Violation :=
  match d !! node_id with
  | Some flow =>
      if decide (transfer_max < flow)
      then [{| v_node := node_id; v_direction := dir;
               v_flow := flow; v_transfer_max := transfer_max |}]
      else []
  | None => []
  end.

(** The body of [for node_id, row in self.offices_df.iterrows()]. *)
Definition check_office (st : TransferAcc) (violations : list Violation)
    (entry : Node * OfficeRow) : list Violation :=
  (violations
     ++ check_flow (node_in_flow st) Inbound entry.1 (transfer_max entry.2))
     ++ check_flow (node_out_flow st) Outbound entry.1 (transfer_max entry.2).

Definition _calculate_transfer_costs (paths : list Path)
    (offices_df : option (list (Node * OfficeRow)))
    : Qc * list Violation :=
  let st := foldl (visit_path offices_df)
                  {| total_transfer_cost := 0;
                     node_in_flow := ∅;
                     node_out_flow := ∅ |} paths in
  (total_transfer_cost st,
   match offices_df with
   | Some offices => foldl (check_office st) [] offices
   | None => []
   end).

(** ** count_underloaded_legs *)

(** [dict.values()]. *)
Definition values {K V} `{Countable K} (d : gmap K V) : list V :=
  (map_to_list d).*2.

Definition count_underloaded_legs (transport_legs : gmap (Node * Node) Leg)
    (vehicle_capacity : Qc) (threshold : Qc) : nat :=
  length (filter (λ leg, sum_volume leg < threshold * vehicle_capacity)
                 (values transport_legs)).

(** ** The analyzer *)

(** [cost_per_cubic_meter]: a number or [float('inf')]. *)
Inductive Cost :=
  | Finite (q : Qc)
  | Infinity.

Record Solution := {
  paths : list Path;
  vehicle_capacity : Qc;
  matrix_df : gmap (Node * Node) MatrixRow;
  offices_df : option (list (Node * OfficeRow));
  transport_legs : gmap (Node * Node) Leg;
  reqs : gmap (Node * Node) Qc;
  total_volume : Qc;
  total_vehicles : Z;
  total_distance : Qc;
  total_time : Qc;
  transport_cost : Qc;
  transfer_cost : Qc;
  transfer_violations : list Violation;
  total_cost : Qc;
  avg_delivery_time_per_req : Qc;
  avg_delivery_time_per_volume : Qc;
  paths_per_req : Qc;
  vehicle_utilization : Qc;
  underloaded_legs : nat;
  cost_per_cubic_meter : Cost
}.

(** ** _compute_metrics

    Every [/] goes through [pydiv], so that a zero divisor would surface as
    [ZeroDivisionError]. *)
Definition _compute_metrics (paths : list Path) (vehicle_capacity : Qc)
    (matrix_df : gmap (Node * Node) MatrixRow)
    (offices_df : option (list (Node * OfficeRow)))
    (transport_legs : gmap (Node * Node) Leg)
    (reqs : gmap (Node * Node) Qc) : result Solution :=
  let total_volume := Qcsum (volume <$> paths) in
  let total_vehicles := Zsum (vehicles <$> values transport_legs) in
  let total_distance :=
    Qcsum ((λ leg, distance leg * Qc_of_Z (vehicles leg)) <$> values transport_legs) in
  let total_time :=
    Qcsum ((λ leg, time leg * Qc_of_Z (vehicles leg)) <$> values transport_legs) in
  let transport_cost := Qcsum (sum_cost <$> values transport_legs) in
  let transfer := _calculate_transfer_costs paths offices_df in
  let total_cost := transport_cost + transfer.1 in
  avg_req ←
    (if decide (reqs ≠ ∅)
     then pydiv total_time (Qc_of_Z (Z.of_nat (size reqs)))
     else Ok 0);
  avg_vol ←
    (if decide (0 < Qcsum (values reqs))
     then pydiv total_time (Qcsum (values reqs))
     else Ok 0);
  per_req ←
    (if decide (reqs ≠ ∅)
     then pydiv (Qc_of_Z (Z.of_nat (length paths))) (Qc_of_Z (Z.of_nat (size reqs)))
     else Ok 0);
  let total_capacity := Qc_of_Z total_vehicles * vehicle_capacity in
  load ←
    (if decide (0 < total_capacity)
     then q ← pydiv total_volume total_capacity; Ok (q * Qc_of_Z 100)
     else Ok 0);
  let vehicle_utilization := Qcmin load (Qc_of_Z 100) in
  let underloaded := count_underloaded_legs transport_legs vehicle_capacity (dec 3 1) in
  cpm ←
    (if decide (0 < total_volume)
     then q ← pydiv total_cost total_volume; Ok (Finite q)
     else Ok Infinity);
  Ok {| paths := paths;
        vehicle_capacity := vehicle_capacity;
        matrix_df := matrix_df;
        offices_df := offices_df;
        transport_legs := transport_legs;
        reqs := reqs;
        total_volume := total_volume;
        total_vehicles := total_vehicles;
        total_distance := total_distance;
        total_time := total_time;
        transport_cost := transport_cost;
        transfer_cost := transfer.1;
        transfer_violations := transfer.2;
        total_cost := total_cost;
        avg_delivery_time_per_req := avg_req;
        avg_delivery_time_per_volume := avg_vol;
        paths_per_req := per_req;
        vehicle_utilization := vehicle_utilization;
        underloaded_legs := underloaded;
        cost_per_cubic_meter := cpm |}.

(** ** __init__

    Returns the analyzer together with the lines logged while the legs were
    reconstructed. *)
Definition Solution_init (paths : list Path) (vehicle_capacity : Qc)
    (matrix_df : gmap (Node * Node) MatrixRow)
    (offices_df : option (list (Node * OfficeRow)))
    : result (Solution * Log) :=
  legs ← _reconstruct_transport_legs_from_paths paths vehicle_capacity matrix_df;
  let reqs := _reconstruct_reqs_from_paths paths in
  s ← _compute_metrics paths vehicle_capacity matrix_df offices_df legs.1 reqs;
  Ok (s, legs.2).

(** ** validate_coverage *)

(** A coverage finding: the values interpolated into the message
    ["Заявка {src}→{dst}: ожидалось {exp_vol}, получено {act_vol}"]. *)
Record CoverageError := {
  ce_key : Node * Node;
  ce_expected : Qc;
  ce_actual : Qc
}.

(** [actual[(path['src'], path['dst'])] += path['volume']] *)
Definition add_actual (actual : gmap (Node * Node) Qc) (path : Path)
    : gmap (Node * Node) Qc :=
  <[(src path, dst path) := default 0 (actual !! (src path, dst path)) + volume path]> actual.

(** The body of [for (src, dst), exp_vol in df_tare['volume'].items()]. *)
Definition check_request (actual : gmap (Node * Node) Qc)
    (errors : list CoverageError) (entry : (Node * Node) * Qc)
    : list CoverageError :=
  let act_vol := default 0 (actual !! entry.1) in
  if decide (dec 1 3 < Qcabs (act_vol - entry.2))
  then errors ++ [{| ce_key := entry.1; ce_expected := entry.2; ce_actual := act_vol |}]
  else errors.

Definition validate_coverage (self : Solution)
    (df_tare : list ((Node * Node) * Qc)) : list CoverageError :=
  let actual := foldl add_actual ∅ (paths self) in
  foldl (check_request actual) [] df_tare.

(** ** load_from_external_format *)

Record ExtLeg := {
  from_office_id : Node;
  to_office_id : Node
}.

Record Flow := {
  src_office_id : Node;
  dst_office_id : Node;
  avg_day_polybox_qty : Qc;
  legs : list ExtLeg
}.

(** The body of [for flow in data.get('flows', [])], up to [paths.append]. *)
Definition flow_path (flow : Flow) : result Path :=
  match legs flow with
  | [] => Raise IndexError
  | first :: _ =>
      let path_nodes := from_office_id first :: (to_office_id <$> legs flow) in
      if decide (head path_nodes ≠ Some (src_office_id flow)
                 ∨ last path_nodes ≠ Some (dst_office_id flow))
      then Raise ValueError
      else Ok {| src := src_office_id flow;
                 dst := dst_office_id flow;
                 volume := avg_day_polybox_qty flow;
                 path_nodes := path_nodes |}
  end.

Definition flows_paths (flows : list Flow) : result (list Path) :=
  foldl (λ acc flow, paths ← acc; path ← flow_path flow; Ok (paths ++ [path]))
        (Ok []) flows.

(** [data] is the ['flows'] entry of the document, if it has one. *)
Definition load_from_external_format (data : option (list Flow))
    (matrix_df : gmap (Node * Node) MatrixRow)
    (offices_df : option (list (Node * OfficeRow)))
    (vehicle_capacity : Qc) : result (Solution * Log) :=
  paths ← flows_paths (default [] data);
  Solution_init paths vehicle_capacity matrix_df offices_df.

End Analyzer.

Arguments Path Node : clear implicits.
Arguments LegAcc Node : clear implicits.
Arguments Leg Node : clear implicits.
Arguments Log Node : clear implicits.
Arguments Violation Node : clear implicits.
Arguments CoverageError Node : clear implicits.
Arguments ExtLeg Node : clear implicits.
Arguments Flow Node : clear implicits.
Arguments TransferAcc Node {_ _}.
Arguments Solution Node {_ _}.

(** * Export and import

    [str] of a node list, as [DataFrame.to_csv] writes the [path_nodes] cell,
    and [eval] of such a cell are parameters: [Text] is the type of cell
    texts.  Numbers are written and read back unchanged. *)

Section Files.
Context {Node : Type} `{Countable Node} {Text : Type}.
Context (py_str : list Node → Text) (py_eval : Text → result (list Node)).

(** A row of [paths.csv]. *)
Record PathRow := {
  row_src : Node;
  row_dst : Node;
  row_volume : Qc;
  row_path_nodes : Text
}.

(** A row of [transport_legs.csv]: the leg and, in [reqs_str], the values
    interpolated into ["{src}->{dst}({vol})"] for each of its requests. *)
Record LegRow := {
  row_leg : Leg Node;
  reqs_str : option (list ((Node * Node) * Qc))
}.

(** The row of [summary.csv], and the ['metadata'] of [solution.json]. *)
Record Summary := {
  sum_total_cost : Qc;
  sum_transport_cost : Qc;
  sum_transfer_cost : Qc;
  sum_total_vehicles : Z;
  sum_total_distance : Qc;
  sum_total_volume : Qc;
  sum_vehicle_utilization : Qc;
  sum_cost_per_cubic_meter : Cost;
  sum_avg_delivery_time : Qc;
  sum_vehicle_capacity : Qc
}.

(** The files of the output directory; [None] is a file that is not written. *)
Record CsvFiles := {
  paths_csv : option (list PathRow);
  transport_legs_csv : option (list LegRow);
  summary_csv : Summary
}.

Definition summary (self : Solution Node) : Summary :=
  {| sum_total_cost := total_cost self;
     sum_transport_cost := transport_cost self;
     sum_transfer_cost := transfer_cost self;
     sum_total_vehicles := total_vehicles self;
     sum_total_distance := total_distance self;
     sum_total_volume := total_volume self;
     sum_vehicle_utilization := vehicle_utilization self;
     sum_cost_per_cubic_meter := cost_per_cubic_meter self;
     sum_avg_delivery_time := avg_delivery_time_per_req self;
     sum_vehicle_capacity := vehicle_capacity self |}.

Definition path_row (path : Path Node) : PathRow :=
  {| row_src := src path;
     row_dst := dst path;
     row_volume := volume path;
     row_path_nodes := py_str (path_nodes path) |}.

Definition leg_row (leg : Leg Node) : LegRow :=
  {| row_leg := leg;
     reqs_str := if decide (leg_reqs leg = []) then None else Some (leg_reqs leg) |}.

Definition save_to_csv (self : Solution Node) : CsvFiles :=
  {| paths_csv :=
       if decide (paths self = []) then None
       else Some (path_row <$> paths self);
     transport_legs_csv :=
       if decide (transport_legs self = ∅) then None
       else Some (leg_row <$> values (transport_legs self));
     summary_csv := summary self |}.

(** A JSON solution document: the entries of the object, [None] for a key it
    does not have. *)
Record Document := {
  doc_flows : option (list (Flow Node));
  doc_paths : option (list (Path Node));
  doc_transport_legs : option (list (Leg Node));
  doc_metadata : option Summary
}.

Definition save_to_json (self : Solution Node) : Document :=
  {| doc_flows := None;
     doc_paths := Some (paths self);
     doc_transport_legs := Some (values (transport_legs self));
     doc_metadata := Some (summary self) |}.

(** [validator_ext.load_solution] *)

Inductive SolutionFile :=
  | JsonFile (doc : Document)
  | CsvFile (rows : list PathRow).

(** The body of [try:] for one row of the CSV file. *)
Definition row_flow (row : PathRow) : result (Flow Node) :=
  path_nodes ← py_eval (row_path_nodes row);
  Ok {| src_office_id := row_src row;
        dst_office_id := row_dst row;
        avg_day_polybox_qty := row_volume row;
        legs := (λ e, {| from_office_id := e.1; to_office_id := e.2 |})
                  <$> edges path_nodes |}.

(** The body of [for _, row in df.iterrows()]: a row that raises is logged
    and dropped. *)
Definition add_row (st : list (Flow Node) * list PyExc) (row : PathRow)
    : list (Flow Node) * list PyExc :=
  match row_flow row with
  | Ok flow => (st.1 ++ [flow], st.2)
  | Raise e => (st.1, st.2 ++ [e])
  end.

(** Returns the ['flows'] entry of the loaded data, if it has one, and the
    logged errors. *)
Definition load_solution (file : SolutionFile)
    : option (list (Flow Node)) * list PyExc :=
  match file with
  | JsonFile doc => (doc_flows doc, [])
  | CsvFile rows =>
      let st := foldl add_row ([], []) rows in
      (Some st.1, st.2)
  end.

(** [validator_ext.main], from [load_solution] to the construction of the
    analyzer. *)
Definition main_solution (file : SolutionFile)
    (matrix_df : gmap (Node * Node) MatrixRow)
    (offices_df : option (list (Node * OfficeRow)))
    (vehicle_capacity : Qc) : result (Solution Node * Log Node) :=
  load_from_external_format (load_solution file).1
    matrix_df offices_df vehicle_capacity.

End Files.

Arguments PathRow Node Text : clear implicits.
Arguments LegRow Node : clear implicits.
Arguments CsvFiles Node Text : clear implicits.
Arguments Document Node : clear implicits.
Arguments SolutionFile Node Text : clear implicits.

(** * Reference definitions

    Closed forms that the loops of the analyzer are compared with. *)

Section Reference.
Context {Node : Type} `{Countable Node}.
Implicit Types (path : Path Node) (paths : list (Path Node)).
Implicit Types (key : Node * Node) (req : (Node * Node) * Qc).
Implicit Types (matrix_df : gmap (Node * Node) MatrixRow).

(** The entry under [key] after the requests [l] were routed over [key],
    starting from the entry [o]. *)
Definition extend matrix_df key (o : option (LegAcc Node))
    (l : list ((Node * Node) * Qc)) : option (LegAcc Node) :=
  match l with
  | [] => o
  | _ =>
      match o with
      | Some leg => Some (foldl leg_add leg l)
      | None => (λ row, foldl leg_add (new_leg row) l) <$> matrix_df !! key
      end
  end.

(** The requests one path routes over [key]: one per occurrence of the edge. *)
Definition path_contributions key path : list ((Node * Node) * Qc) :=
  (λ _, ((src path, dst path), volume path))
    <$> filter (λ e, e = key) (edges (path_nodes path)).

Definition contributions key paths : list ((Node * Node) * Qc) :=
  paths ≫= path_contributions key.

(** The edges that have no row in [matrix_df], one per occurrence. *)
Definition unresolved_edges matrix_df paths : list (Node * Node) :=
  paths ≫= λ path, filter (λ e, matrix_df !! e = None) (edges (path_nodes path)).

(** A leg with its vehicle count and cost, for a nonzero capacity. *)
Definition with_vehicles (vehicle_capacity : Qc) (leg : LegAcc Node) : Leg Node :=
  let n := ceil (acc_sum_volume leg / vehicle_capacity) in
  {| distance := acc_distance leg;
     time := acc_time leg;
     cost_per_km := acc_cost_per_km leg;
     sum_volume := acc_sum_volume leg;
     leg_reqs := acc_reqs leg;
     vehicles := n;
     sum_cost := Qc_of_Z n * acc_cost_per_km leg * acc_distance leg / Qc_of_Z 1000 |}.

(** The entry of a [defaultdict] after the amounts [l] were added to it. *)
Definition bump (o : option Qc) (l : list Qc) : option Qc :=
  match l with
  | [] => o
  | _ => Some (default 0 o + Qcsum l)
  end.

(** The volumes of the flows of request [key]. *)
Definition request_volumes key paths : list Qc :=
  volume <$> filter (λ path, (src path, dst path) = key) paths.

(** The visits of transit nodes, in the order the code makes them: the node
    and the volume of the flow that passes through it. *)
Definition transit_visits paths : list (Node * Qc) :=
  paths ≫= λ path, (λ node, (node, volume path)) <$> transit_nodes (path_nodes path).

(** The volumes that pass through [node] as a transit node, one per visit. *)
Definition transit_volumes (node : Node) paths : list Qc :=
  snd <$> filter (λ visit, visit.1 = node) (transit_visits paths).

(** Only edges that have a row in [matrix_df] get an entry. *)
Definition resolved matrix_df (st : gmap (Node * Node) (LegAcc Node) * Log Node) : Prop :=
  ∀ key, is_Some (st.1 !! key) → is_Some (matrix_df !! key).

(** The finding of the coverage check for one row of the request table: the
    actual volume is the sum of the volumes of the flows of that request. *)
Definition coverage_finding paths (entry : (Node * Node) * Qc)
    : list (CoverageError Node) :=
  let actual := Qcsum (request_volumes entry.1 paths) in
  if decide (dec 1 3 < Qcabs (actual - entry.2))
  then [{| ce_key := entry.1; ce_expected := entry.2; ce_actual := actual |}]
  else [].

(** The volume that passes through [node], if any flow does. *)
Definition transit_volume (node : Node) paths : option Qc :=
  match transit_volumes node paths with
  | [] => None
  | l => Some (Qcsum l)
  end.

(** The finding for one direction at one node. *)
Definition direction_finding (node : Node) (dir : Direction)
    (flow : option Qc) (transfer_max : Qc) : list (Violation Node) :=
  match flow with
  | Some flow =>
      if decide (transfer_max < flow)
      then [{| v_node := node; v_direction := dir;
               v_flow := flow; v_transfer_max := transfer_max |}]
      else []
  | None => []
  end.

(** The findings of the capacity check for one row of the office table.  A
    transit node receives and re-emits every flow that passes through it. *)
Definition node_findings paths (entry : Node * OfficeRow)
    : list (Violation Node) :=
  direction_finding entry.1 Inbound
    (transit_volume entry.1 paths) (transfer_max entry.2)
  ++ direction_finding entry.1 Outbound
       (transit_volume entry.1 paths) (transfer_max entry.2).

(** The request keys of the flows, with repetitions. *)
Definition request_keys paths : list (Node * Node) :=
  (λ path, (src path, dst path)) <$> paths.

(** The node sequence of a flow of the structured form: the first leg's
    [from_office_id], then every leg's [to_office_id]. *)
Definition reconstructed_path (flow : Flow Node) : list Node :=
  match legs flow with
  | [] => []
  | first :: _ => from_office_id first :: (to_office_id <$> legs flow)
  end.

(** The reconstructed path does not start at the source of the flow, or does
    not end at its destination. *)
Definition endpoints_mismatch (flow : Flow Node) : Prop :=
  head (reconstructed_path flow) ≠ Some (src_office_id flow)
  ∨ last (reconstructed_path flow) ≠ Some (dst_office_id flow).

(** The path dictionary built from an accepted flow. *)
Definition accepted_path (flow : Flow Node) : Path Node :=
  {| src := src_office_id flow;
     dst := dst_office_id flow;
     volume := avg_day_polybox_qty flow;
     path_nodes := reconstructed_path flow |}.

(** A flow as the data model has it: at least two nodes, from the source to
    the destination. *)
Definition well_formed path : Prop :=
  (2 ≤ length (path_nodes path))%nat
  ∧ head (path_nodes path) = Some (src path)
  ∧ last (path_nodes path) = Some (dst path).

(** The flow of the structured form that the flat-path row of a path
    converts to. *)
Definition path_flow path : Flow Node :=
  {| src_office_id := src path;
     dst_office_id := dst path;
     avg_day_polybox_qty := volume path;
     legs := (λ e, {| from_office_id := e.1; to_office_id := e.2 |})
               <$> edges (path_nodes path) |}.

(** The metrics, with plain division under the guards of the code. *)
Definition metrics paths (vehicle_capacity : Qc) matrix_df
    (offices_df : option (list (Node * OfficeRow)))
    (transport_legs : gmap (Node * Node) (Leg Node))
    (reqs : gmap (Node * Node) Qc) : Solution Node :=
  let total_volume := Qcsum (volume <$> paths) in
  let total_vehicles := Zsum (vehicles <$> values transport_legs) in
  let total_time :=
    Qcsum ((λ leg, time leg * Qc_of_Z (vehicles leg)) <$> values transport_legs) in
  let transport_cost := Qcsum (sum_cost <$> values transport_legs) in
  let transfer := _calculate_transfer_costs paths offices_df in
  let total_capacity := Qc_of_Z total_vehicles * vehicle_capacity in
  {| paths := paths;
     vehicle_capacity := vehicle_capacity;
     matrix_df := matrix_df;
     offices_df := offices_df;
     transport_legs := transport_legs;
     reqs := reqs;
     total_volume := total_volume;
     total_vehicles := total_vehicles;
     total_distance :=
       Qcsum ((λ leg, distance leg * Qc_of_Z (vehicles leg)) <$> values transport_legs);
     total_time := total_time;
     transport_cost := transport_cost;
     transfer_cost := transfer.1;
     transfer_violations := transfer.2;
     total_cost := transport_cost + transfer.1;
     avg_delivery_time_per_req :=
       if decide (reqs ≠ ∅)
       then total_time / Qc_of_Z (Z.of_nat (size reqs)) else 0;
     avg_delivery_time_per_volume :=
       if decide (0 < Qcsum (values reqs))
       then total_time / Qcsum (values reqs) else 0;
     paths_per_req :=
       if decide (reqs ≠ ∅)
       then Qc_of_Z (Z.of_nat (length paths)) / Qc_of_Z (Z.of_nat (size reqs))
       else 0;
     vehicle_utilization :=
       Qcmin (if decide (0 < total_capacity)
              then total_volume / total_capacity * Qc_of_Z 100 else 0)
             (Qc_of_Z 100);
     underloaded_legs :=
       count_underloaded_legs transport_legs vehicle_capacity (dec 3 1);
     cost_per_cubic_meter :=
       if decide (0 < total_volume)
       then Finite ((transport_cost + transfer.1) / total_volume)
       else Infinity |}.

End Reference.

(** * Further functions *)

(** ** format_time *)

Inductive TimeUnit := Days | Hours | Minutes.

Global Instance TimeUnit_eq_dec : EqDecision TimeUnit.
Proof. solve_decision. Defined.

(** [a // b], an integral number. *)
Definition floordiv (a b : Qc) : Z := Qfloor (a / b)%Qc.

(** [a % b] *)
Definition pymod (a b : Qc) : Qc := a - b * Qc_of_Z (floordiv a b).

(** The parts that [" ".join(parts)] joins: the number and the unit
    interpolated into ["{int(days)} дн"], ["{int(hours)} ч"],
    ["{int(minutes)} мин"]. *)
Definition format_time (seconds : Qc) : list (Z * TimeUnit) :=
  let days := floordiv seconds (Qc_of_Z (24 * 3600)) in
  let seconds := pymod seconds (Qc_of_Z (24 * 3600)) in
  let hours := floordiv seconds (Qc_of_Z 3600) in
  let seconds := pymod seconds (Qc_of_Z 3600) in
  let minutes := floordiv seconds (Qc_of_Z 60) in
  let parts := [] in
  let parts := if decide (0 < days)%Z then parts ++ [(days, Days)] else parts in
  let parts := if decide (0 < hours)%Z then parts ++ [(hours, Hours)] else parts in
  let parts :=
    if decide ((0 < minutes)%Z ∨ parts = [])
    then parts ++ [(minutes, Minutes)] else parts in
  parts.

(** ** load_from_json *)

(** What [load_from_json] does: it returns or raises as the constructor
    does, or raises the [TypeError] of the call
    [cls(paths=None, transport_legs=...)], [__init__] having no parameter
    [transport_legs]. *)
Inductive JsonLoad (A : Type) :=
  | JsonDone (r : result A)
  | JsonTypeError.
Arguments JsonDone {A} r.
Arguments JsonTypeError {A}.

Section Json.
Context {Node : Type} `{Countable Node}.

(** [file] is the parsed [solution.json], [None] when it does not exist. *)
Definition load_from_json (file : option (Document Node))
    (vehicle_capacity : Qc)
    (matrix_df : gmap (Node * Node) MatrixRow)
    (offices_df : option (list (Node * OfficeRow)))
    : JsonLoad (Solution Node * Log Node) :=
  match file with
  | None => JsonDone (Raise FileNotFoundError)
  | Some data =>
      match doc_transport_legs data with
      | None => JsonDone (Raise KeyError)
      | Some transport_legs =>
          match doc_paths data with
          | None => JsonDone (Raise KeyError)
          | Some [] => JsonTypeError
          | Some paths =>
              JsonDone (Solution_init paths vehicle_capacity matrix_df offices_df)
          end
      end
  end.

End Json.

(** ** load_from_csv

    [pd.read_csv] reads the [src] and [dst] cells as integers and the
    [path_nodes] cell as a [str]; the constructor then indexes that [str],
    whose items are its one-character strings. *)

Inductive PyKey :=
  | KInt (i : Z)
  | KStr (text : string).

Global Instance PyKey_eq_dec : EqDecision PyKey.
Proof. solve_decision. Defined.

Global Instance PyKey_countable : Countable PyKey :=
  inj_countable'
    (λ k, match k with KInt i => inl i | KStr text => inr text end)
    (λ x, match x with inl i => KInt i | inr text => KStr text end)
    (λ k, match k with KInt _ => eq_refl | KStr _ => eq_refl end).

(** The items of a [str]. *)
Definition str_items (text : string) : list PyKey :=
  (λ c, KStr (String c EmptyString)) <$> String.list_ascii_of_string text.

(** A record of [paths_df.to_dict(orient='records')]. *)
Definition csv_record (row : PathRow PyKey string) : Path PyKey :=
  {| src := row_src row;
     dst := row_dst row;
     volume := row_volume row;
     path_nodes := str_items (row_path_nodes row) |}.

(** [file] is the table at [input_file_path], [None] when it does not exist. *)
Definition load_from_csv (file : option (list (PathRow PyKey string)))
    (vehicle_capacity : Qc)
    (matrix_df : gmap (PyKey * PyKey) MatrixRow)
    (offices_df : option (list (PyKey * OfficeRow)))
    : result (Solution PyKey * Log PyKey) :=
  match file with
  | Some rows =>
      Solution_init (csv_record <$> rows) vehicle_capacity matrix_df offices_df
  | None => Raise ValueError
  end.

(** * Further reference definitions *)

(** The seconds that the parts of a formatted time stand for. *)
Definition part_seconds (part : Z * TimeUnit) : Z :=
  match part.2 with
  | Days => part.1 * 86400
  | Hours => part.1 * 3600
  | Minutes => part.1 * 60
  end.

Definition parts_seconds (parts : list (Z * TimeUnit)) : Z :=
  Zsum (part_seconds <$> parts).

Section MoreReference.
Context {Node : Type} `{Countable Node}.
Implicit Types (path : Path Node) (paths : list (Path Node)).

(** The transfer charge of one visit of a transit node. *)
Definition transfer_charge (offices : list (Node * OfficeRow))
    (visit : Node * Qc) : Qc :=
  match office_row offices visit.1 with
  | Some row => visit.2 * transfer_price row
  | None => 0
  end.

(** The key of a finding, whatever its direction. *)
Definition finding_data (v : Violation Node) : Node * Qc * Qc :=
  (v_node v, v_flow v, v_transfer_max v).

(** The node pairs of the legs of a flow. *)
Definition leg_pairs (flow : Flow Node) : list (Node * Node) :=
  (λ leg, (from_office_id leg, to_office_id leg)) <$> legs flow.

End MoreReference.

(** * Additions as the code groups them

    [_reconstruct_reqs_from_paths] and [total_volume] add the same volumes in
    two groupings: request by request and then over the requests, or all of
    them from the left.  Here the numbers are a parameter, with an addition
    of which nothing is assumed, so that the grouping shows.  A flow is the
    request key and the volume of a path, which is all that these lines read
    of it; a dict is the list of its items in insertion order, which is the
    order of [values()]. *)

Module AsComputed.
Section Numbers.
Context {Key : Type} `{EqDecision Key} {Num : Type}.
Context (zero : Num) (add : Num → Num → Num) (div : Num → Num → Num).
Context (gt0 : Num → bool).

(** [sum(...)]: the additions are made from the left, starting from 0. *)
Definition py_sum (l : list Num) : Num := foldl add zero l.

(** [reqs[key] = reqs.get(key, 0) + volume]: an existing key keeps its
    place, a new one goes last. *)
Fixpoint add_req (reqs : list (Key * Num)) (key : Key) (volume : Num)
    : list (Key * Num) :=
  match reqs with
  | [] => [(key, add zero volume)]
  | (k, x) :: reqs' =>
      if decide (k = key) then (k, add x volume) :: reqs'
      else (k, x) :: add_req reqs' key volume
  end.

Definition _reconstruct_reqs_from_paths (flows : list (Key * Num))
    : list (Key * Num) :=
  foldl (λ reqs flow, add_req reqs flow.1 flow.2) [] flows.

(** [sum(path['volume'] for path in self.paths)] *)
Definition total_volume (flows : list (Key * Num)) : Num := py_sum flows.*2.

(** [self.total_time / sum(self.reqs.values())
     if sum(self.reqs.values()) > 0 else 0] *)
Definition avg_delivery_time_per_volume (total_time : Num)
    (reqs : list (Key * Num)) : Num :=
  if gt0 (py_sum reqs.*2) then div total_time (py_sum reqs.*2) else zero.

End Numbers.
End AsComputed.

(** The request key and the volume of a path. *)
Definition key_volume {Node : Type} (path : Path Node) : (Node * Node) * Qc :=
  ((src path, dst path), volume path).

(** * Example data *)

Definition flow13 (v : Qc) : Path Z :=
  {| src := 1%Z; dst := 3%Z; volume := v; path_nodes := [1; 2; 3]%Z |}.

Definition row12 : MatrixRow :=
  {| m_distance := Qc_of_Z 1000; m_time := Qc_of_Z 60;
     m_price_per_km := dec 25 1 |}.

Definition row23 : MatrixRow :=
  {| m_distance := Qc_of_Z 2500; m_time := Qc_of_Z 120;
     m_price_per_km := Qc_of_Z 3 |}.

(** An edge reference without the edge (2, 3). *)
Definition matrix12 : gmap (Z * Z) MatrixRow := {[ (1, 2)%Z := row12 ]}.

Definition matrix123 : gmap (Z * Z) MatrixRow :=
  {[ (1, 2)%Z := row12; (2, 3)%Z := row23 ]}.

(** A node table in which node 2 has capacity 10. *)
Definition offices2 : list (Z * OfficeRow) :=
  [(2%Z, {| transfer_price := Qc_of_Z 4; transfer_max := Qc_of_Z 10 |})].

(** The structured form of [flow13]. *)
Definition ext13 (v : Qc) : Flow Z :=
  {| src_office_id := 1%Z; dst_office_id := 3%Z; avg_day_polybox_qty := v;
     legs := [ {| from_office_id := 1%Z; to_office_id := 2%Z |};
               {| from_office_id := 2%Z; to_office_id := 3%Z |} ] |}.

(** Cell texts that are read back as they were written. *)
Definition literal_str (nodes : list Z) : list Z := nodes.
Definition literal_eval (text : list Z) : result (list Z) := Ok text.

(** A direct flow. *)
Definition flow12 (v : Qc) : Path Z :=
  {| src := 1%Z; dst := 2%Z; volume := v; path_nodes := [1; 2]%Z |}.

(** A flow of the structured form whose second leg does not start where the
    first ends. *)
Definition gap13 (v : Qc) : Flow Z :=
  {| src_office_id := 1%Z; dst_office_id := 3%Z; avg_day_polybox_qty := v;
     legs := [ {| from_office_id := 1%Z; to_office_id := 2%Z |};
               {| from_office_id := 7%Z; to_office_id := 3%Z |} ] |}.

(** A row of a flat-path file, its cell text being the node list. *)
Definition literal_row : PathRow Z (list Z) :=
  {| row_src := 1%Z; row_dst := 3%Z; row_volume := Qc_of_Z 91;
     row_path_nodes := [1; 2; 3]%Z |}.

(** The table of [paths.csv] as [pd.read_csv] returns it. *)
Definition csv_rows : list (PathRow PyKey string) :=
  [ {| row_src := KInt 1; row_dst := KInt 3; row_volume := Qc_of_Z 91;
       row_path_nodes := "[1, 2, 3]"%string |} ].

(** An edge reference indexed by office numbers. *)
Definition key_matrix : gmap (PyKey * PyKey) MatrixRow :=
  {[ (KInt 1, KInt 2) := row12 ]}.

(** Three flows with [float] volumes 0.3, 0.1 and 0.2, the first and the last
    of the same request.  The literals denote the binary64 values that Python
    reads them as. *)
#[warnings="-inexact-float"]
Definition float_flows : list ((Z * Z) * float) :=
  [ ((1, 2)%Z, 0.3%float); ((1, 3)%Z, 0.1%float); ((1, 2)%Z, 0.2%float) ].

(** The same requests with the integer volumes 3, 1 and 2. *)
Definition int_flows : list ((Z * Z) * Qc) :=
  [ ((1, 2)%Z, Qc_of_Z 3); ((1, 3)%Z, Qc_of_Z 1); ((1, 2)%Z, Qc_of_Z 2) ].

(** * Properties *)

(** Closed goals on concrete rationals. *)
Ltac qc_eq := apply Qc_is_canon; vm_compute; reflexivity.
Ltac qc_neq :=
  let Heq := fresh in
  intros Heq; apply (f_equal this) in Heq; vm_compute in Heq; discriminate.
Ltac qc_le := vm_compute; discriminate.


(** ** Sums *)

Lemma Qcsum_app (l1 l2 : list Qc) : Qcsum (l1 ++ l2) = Qcsum l1 + Qcsum l2.
Proof.
  induction l1 as [|x l1 IH]; simpl.
  - ring.
  - rewrite IH. ring.
Qed.

Lemma Qcsum_perm (l1 l2 : list Qc) : l1 ≡ₚ l2 → Qcsum l1 = Qcsum l2.
Proof.
  induction 1 as [|x l1 l2 _ IH|x y l|l1 l2 l3 _ IH1 _ IH2]; simpl.
  - reflexivity.
  - by rewrite IH.
  - ring.
  - by rewrite IH1.
Qed.

Lemma Qcsum_nonneg (l : list Qc) : Forall (λ x, 0 ≤ x) l → 0 ≤ Qcsum l.
Proof.
  induction 1 as [|x l Hx _ IH]; simpl.
  - apply Qcle_refl.
  - by apply Qcplus_nonneg_nonneg.
Qed.

Lemma Zsum_nonneg (l : list Z) : Forall (λ x, 0 ≤ x)%Z l → (0 ≤ Zsum l)%Z.
Proof. induction 1; simpl; lia. Qed.

Lemma Zsum_nonpos (l : list Z) : Forall (λ x, x ≤ 0)%Z l → (Zsum l ≤ 0)%Z.
Proof. induction 1; simpl; lia. Qed.

(** ** Signs *)

Lemma Qcopp_pos (x : Qc) : x < 0 → 0 < - x.
Proof.
  intros Hx. apply Qclt_minus_iff in Hx. by rewrite Qcplus_0_l in Hx.
Qed.

Lemma Qcopp_nonpos (x : Qc) : 0 ≤ x → - x ≤ 0.
Proof. intros Hx. by apply Qcopp_le_compat in Hx. Qed.

Lemma Qcdiv_nonneg (a b : Qc) : 0 ≤ a → 0 < b → 0 ≤ a / b.
Proof.
  intros Ha Hb. apply Qcmult_nonneg_nonneg; [done|].
  by apply Qclt_le_weak, Qcinv_pos.
Qed.

Lemma Qcdiv_nonpos (a b : Qc) : 0 ≤ a → b < 0 → a / b ≤ 0.
Proof.
  intros Ha Hb.
  assert (a / b = - (a / - b)) as ->.
  { assert (b ≠ 0) as Hb0 by (intros ->; by apply Qclt_not_eq in Hb).
    field. split; [|done].
    intros Hopp. apply Hb0. by rewrite <-(Qcopp_involutive b), Hopp. }
  apply Qcopp_nonpos, Qcdiv_nonneg; [done|]. by apply Qcopp_pos.
Qed.

Lemma ceil_nonneg (q : Qc) : 0 ≤ q → (0 ≤ ceil q)%Z.
Proof. intros Hq. apply (Qceiling_resp_le 0 q Hq). Qed.

Lemma ceil_nonpos (q : Qc) : q ≤ 0 → (ceil q ≤ 0)%Z.
Proof. intros Hq. apply (Qceiling_resp_le q 0 Hq). Qed.

(** [ceil q] is the least integer that is not below [q]. *)
Lemma ceil_bounds (q : Qc) : Qc_of_Z (ceil q - 1) < q ∧ q ≤ Qc_of_Z (ceil q).
Proof. split; [apply (Qceiling_lt q)|apply (Qle_ceiling q)]. Qed.

Lemma Qc_of_Z_pos (n : Z) : (0 < n)%Z → 0 < Qc_of_Z n.
Proof.
  intros Hn. apply (proj1 (Z2Qc_inj_lt 0 n)) in Hn.
  by rewrite Z2Qc_inj_0 in Hn.
Qed.

(** The procured capacity is positive exactly when some vehicle is used,
    whenever vehicle counts and capacity agree in sign. *)
Lemma capacity_pos_iff (n : Z) (c : Qc) :
  (0 < c ∧ (0 ≤ n)%Z) ∨ (c < 0 ∧ (n ≤ 0)%Z) →
  0 < Qc_of_Z n * c ↔ n ≠ 0%Z.
Proof.
  intros Hsign. split.
  - intros Hpos ->. rewrite Z2Qc_inj_0, Qcmult_0_l in Hpos.
    by apply Qclt_not_eq in Hpos.
  - intros Hn. destruct Hsign as [[Hc Hle]|[Hc Hle]].
    + apply Qcmult_pos_pos; [|done].
      apply Qc_of_Z_pos. lia.
    + assert (Qc_of_Z n * c = Qc_of_Z (- n) * - c) as ->.
      { rewrite Z2Qc_inj_opp. ring. }
      apply Qcmult_pos_pos; [|by apply Qcopp_pos].
      apply Qc_of_Z_pos. lia.
Qed.

Lemma Qcmin_le_r (a b : Qc) : Qcmin a b ≤ b.
Proof.
  unfold Qcmin. case_decide as Hlt; [apply Qcle_refl|].
  by apply Qcnot_lt_le.
Qed.

(** ** Dictionaries that accumulate amounts *)

Section Accumulate.
Context {K : Type} `{Countable K} {A : Type} (kf : A → K) (vf : A → Qc).
Implicit Types (d : gmap K Qc) (l : list A).

Lemma bump_app (o : option Qc) (l1 l2 : list Qc) :
  bump (bump o l1) l2 = bump o (l1 ++ l2).
Proof.
  destruct l1 as [|x1 l1]; [done|].
  destruct l2 as [|x2 l2]; [by rewrite app_nil_r|].
  change ((x1 :: l1) ++ x2 :: l2) with (x1 :: (l1 ++ x2 :: l2)).
  unfold bump. f_equal.
  change (x1 :: (l1 ++ x2 :: l2)) with ((x1 :: l1) ++ x2 :: l2).
  rewrite Qcsum_app. simpl. ring.
Qed.

Lemma accumulate_lookup d l key :
  foldl (λ d x, <[kf x := default 0 (d !! kf x) + vf x]> d) d l !! key
  = bump (d !! key) (vf <$> filter (λ x, kf x = key) l).
Proof.
  revert d. induction l as [|x l IH]; intros d; [done|].
  simpl. rewrite IH, filter_cons. case_decide as Hkey.
  - subst key. rewrite lookup_insert_eq, fmap_cons.
    change (vf x :: (vf <$> filter (λ x0, kf x0 = kf x) l))
      with ([vf x] ++ (vf <$> filter (λ x0, kf x0 = kf x) l)).
    rewrite <-bump_app. f_equal. simpl. f_equal. ring.
  - by rewrite lookup_insert_ne.
Qed.

End Accumulate.

Section AnalyzerFacts.
Context {Node : Type} `{Countable Node}.
Implicit Types (path : Path Node) (paths : list (Path Node)).
Implicit Types (key : Node * Node) (req : (Node * Node) * Qc).
Implicit Types (matrix_df : gmap (Node * Node) MatrixRow).

(** ** Leg accumulation *)

(** What a leg looks like after the requests [l] have been added to it. *)
Lemma foldl_leg_add (leg : LegAcc Node) (l : list ((Node * Node) * Qc)) :
  foldl leg_add leg l =
    {| acc_distance := acc_distance leg;
       acc_time := acc_time leg;
       acc_cost_per_km := acc_cost_per_km leg;
       acc_sum_volume := acc_sum_volume leg + Qcsum l.*2;
       acc_reqs := acc_reqs leg ++ l |}.
Proof.
  revert leg. induction l as [|req l IH]; intros leg; simpl.
  - rewrite app_nil_r, Qcplus_0_r. by destruct leg.
  - rewrite IH. simpl. f_equal; [symmetry; apply Qcplus_assoc | by rewrite <-app_assoc].
Qed.

Lemma extend_app matrix_df key o l1 l2 :
  extend matrix_df key (extend matrix_df key o l1) l2
  = extend matrix_df key o (l1 ++ l2).
Proof.
  destruct l1 as [|r1 l1]; [done|].
  destruct l2 as [|r2 l2]; [by rewrite app_nil_r|].
  change ((r1 :: l1) ++ r2 :: l2) with (r1 :: (l1 ++ r2 :: l2)).
  unfold extend at 2 3.
  destruct o as [leg|].
  - simpl. by rewrite foldl_app.
  - destruct (matrix_df !! key) as [row|] eqn:Hrow; simpl.
    + by rewrite foldl_app.
    + by rewrite Hrow.
Qed.

Lemma add_edge_lookup matrix_df req st k key :
  (add_edge matrix_df req st k).1 !! key
  = extend matrix_df key (st.1 !! key) (if decide (k = key) then [req] else []).
Proof.
  unfold add_edge.
  destruct (st.1 !! k) as [leg|] eqn:Hk; simpl.
  - case_decide as Hkey; subst; simpl.
    + by rewrite lookup_insert_eq, Hk.
    + by rewrite lookup_insert_ne.
  - destruct (matrix_df !! k) as [row|] eqn:Hrow; simpl.
    + case_decide as Hkey; subst; simpl.
      * by rewrite lookup_insert_eq, Hk, Hrow.
      * by rewrite lookup_insert_ne.
    + case_decide as Hkey; subst; simpl; [|done].
      by rewrite Hk, Hrow.
Qed.

Lemma add_edges_lookup matrix_df req st es key :
  (foldl (add_edge matrix_df req) st es).1 !! key
  = extend matrix_df key (st.1 !! key) ((λ _, req) <$> filter (λ e, e = key) es).
Proof.
  revert st. induction es as [|k es IH]; intros st; [done|].
  simpl. rewrite IH, add_edge_lookup, extend_app.
  rewrite filter_cons. by case_decide.
Qed.

Lemma add_paths_lookup matrix_df st paths key :
  (foldl (add_path matrix_df) st paths).1 !! key
  = extend matrix_df key (st.1 !! key) (contributions key paths).
Proof.
  revert st. induction paths as [|path paths IH]; intros st; [done|].
  simpl. rewrite IH. unfold add_path.
  rewrite add_edges_lookup, extend_app. done.
Qed.

(** The accumulated leg map, entry by entry. *)
Lemma accumulate_legs_lookup matrix_df paths key :
  (accumulate_legs matrix_df paths).1 !! key
  = match contributions key paths with
    | [] => None
    | l =>
        (λ row, {| acc_distance := m_distance row;
                   acc_time := m_time row;
                   acc_cost_per_km := m_price_per_km row;
                   acc_sum_volume := Qcsum l.*2;
                   acc_reqs := l |}) <$> matrix_df !! key
    end.
Proof.
  unfold accumulate_legs. rewrite add_paths_lookup. simpl.
  rewrite lookup_empty. unfold extend.
  destruct (contributions key paths) as [|r l]; [done|].
  destruct (matrix_df !! key) as [row|]; [|done].
  simpl. rewrite foldl_leg_add. simpl. do 2 f_equal. by rewrite Qcplus_0_l.
Qed.

(** *** The log *)

Lemma add_edge_log matrix_df req st k :
  resolved matrix_df st →
  resolved matrix_df (add_edge matrix_df req st k)
  ∧ (add_edge matrix_df req st k).2
    = st.2 ++ filter (λ e, matrix_df !! e = None) [k].
Proof.
  intros Hst. unfold add_edge.
  destruct (st.1 !! k) as [leg|] eqn:Hk; simpl.
  - destruct (Hst k) as [row Hrow]; [by rewrite Hk|].
    split.
    + intros key. simpl. rewrite lookup_insert. case_decide; subst; eauto.
    + rewrite filter_cons, decide_False by (by rewrite Hrow).
      by rewrite filter_nil, app_nil_r.
  - destruct (matrix_df !! k) as [row|] eqn:Hrow; simpl.
    + split.
      * intros key. simpl. rewrite lookup_insert. case_decide; subst; eauto.
      * rewrite filter_cons, decide_False by (by rewrite Hrow).
        by rewrite filter_nil, app_nil_r.
    + split; [done|].
      by rewrite filter_cons, decide_True.
Qed.

Lemma add_edges_log matrix_df req st es :
  resolved matrix_df st →
  resolved matrix_df (foldl (add_edge matrix_df req) st es)
  ∧ (foldl (add_edge matrix_df req) st es).2
    = st.2 ++ filter (λ e, matrix_df !! e = None) es.
Proof.
  revert st. induction es as [|k es IH]; intros st Hst; simpl.
  - by rewrite filter_nil, app_nil_r.
  - destruct (add_edge_log matrix_df req st k Hst) as [Hst' Hlog].
    destruct (IH _ Hst') as [Hres ->]. split; [done|].
    rewrite Hlog, <-app_assoc. f_equal.
    rewrite (filter_app _ [k] es). done.
Qed.

Lemma add_paths_log matrix_df st paths :
  resolved matrix_df st →
  resolved matrix_df (foldl (add_path matrix_df) st paths)
  ∧ (foldl (add_path matrix_df) st paths).2
    = st.2 ++ unresolved_edges matrix_df paths.
Proof.
  revert st. induction paths as [|path paths IH]; intros st Hst; simpl.
  - by rewrite app_nil_r.
  - destruct (add_edges_log matrix_df ((src path, dst path), volume path)
                st (edges (path_nodes path)) Hst) as [Hst' Hlog].
    fold (add_path matrix_df st path) in Hst', Hlog.
    destruct (IH _ Hst') as [Hres Hlog']. split; [done|].
    rewrite Hlog', Hlog, <-app_assoc. done.
Qed.

Lemma accumulate_legs_log matrix_df paths :
  (accumulate_legs matrix_df paths).2 = unresolved_edges matrix_df paths.
Proof.
  unfold accumulate_legs.
  destruct (add_paths_log matrix_df (∅, []) paths) as [_ ->]; [|done].
  intros key. simpl. rewrite lookup_empty. by intros [? ?].
Qed.

(** *** Vehicles and cost *)

Lemma set_vehicles_ok (vehicle_capacity : Qc) (leg : LegAcc Node) :
  vehicle_capacity ≠ 0 →
  set_vehicles vehicle_capacity leg = Ok (with_vehicles vehicle_capacity leg).
Proof. intros Hcap. unfold set_vehicles, pydiv. by rewrite decide_False. Qed.

Lemma set_vehicles_inv (vehicle_capacity : Qc) (leg : LegAcc Node) leg' :
  set_vehicles vehicle_capacity leg = Ok leg' →
  vehicle_capacity ≠ 0 ∧ leg' = with_vehicles vehicle_capacity leg.
Proof.
  unfold set_vehicles, pydiv. case_decide; simpl; [done|].
  intros [= <-]. done.
Qed.

Lemma set_all_vehicles_ok (vehicle_capacity : Qc)
    (legs : gmap (Node * Node) (LegAcc Node)) :
  vehicle_capacity ≠ 0 →
  set_all_vehicles vehicle_capacity legs
  = Ok (with_vehicles vehicle_capacity <$> legs).
Proof.
  intros Hcap. unfold set_all_vehicles.
  apply (map_fold_weak_ind (λ r m, r = Ok (with_vehicles vehicle_capacity <$> m))).
  - by rewrite fmap_empty.
  - intros key leg m r _ ->. simpl.
    rewrite set_vehicles_ok by done. simpl. by rewrite fmap_insert.
Qed.

Lemma set_all_vehicles_zero (legs : gmap (Node * Node) (LegAcc Node)) :
  set_all_vehicles 0 legs
  = if decide (legs = ∅) then Ok ∅ else Raise ZeroDivisionError.
Proof.
  assert ((legs = ∅ → set_all_vehicles 0 legs = Ok ∅)
          ∧ (legs ≠ ∅ → set_all_vehicles 0 legs = Raise ZeroDivisionError))
    as [Hempty Hfull].
  { unfold set_all_vehicles.
    apply (map_fold_weak_ind
             (λ r m, (m = ∅ → r = Ok ∅) ∧ (m ≠ ∅ → r = Raise ZeroDivisionError))).
    - done.
    - intros key leg m r _ [Hempty Hfull]. split.
      + intros Hins. by apply insert_non_empty in Hins.
      + intros _. destruct (decide (m = ∅)) as [Hm|Hm].
        * by rewrite (Hempty Hm).
        * by rewrite (Hfull Hm). }
  case_decide; auto.
Qed.

Lemma set_all_vehicles_inv (vehicle_capacity : Qc)
    (legs : gmap (Node * Node) (LegAcc Node)) legs' :
  set_all_vehicles vehicle_capacity legs = Ok legs' →
  legs' = with_vehicles vehicle_capacity <$> legs.
Proof.
  destruct (decide (vehicle_capacity = 0)) as [->|Hcap].
  - rewrite set_all_vehicles_zero. case_decide as He; [|done].
    intros [= <-]. by rewrite He, fmap_empty.
  - rewrite set_all_vehicles_ok by done. by intros [= <-].
Qed.

(** The reconstructed leg map, entry by entry. *)
Lemma transport_legs_inv paths (vehicle_capacity : Qc) matrix_df legs log :
  _reconstruct_transport_legs_from_paths paths vehicle_capacity matrix_df
    = Ok (legs, log) →
  legs = with_vehicles vehicle_capacity <$> (accumulate_legs matrix_df paths).1
  ∧ log = unresolved_edges matrix_df paths.
Proof.
  unfold _reconstruct_transport_legs_from_paths.
  destruct (set_all_vehicles _ _) as [legs'|e] eqn:Hlegs; simpl; [|done].
  intros [= <- <-]. split.
  - by apply set_all_vehicles_inv.
  - apply accumulate_legs_log.
Qed.

Lemma transport_legs_ok paths (vehicle_capacity : Qc) matrix_df :
  vehicle_capacity ≠ 0 →
  _reconstruct_transport_legs_from_paths paths vehicle_capacity matrix_df
    = Ok (with_vehicles vehicle_capacity <$> (accumulate_legs matrix_df paths).1,
          unresolved_edges matrix_df paths).
Proof.
  intros Hcap. unfold _reconstruct_transport_legs_from_paths.
  rewrite set_all_vehicles_ok by done. simpl.
  by rewrite accumulate_legs_log.
Qed.

(** ** Request aggregates *)

Lemma reqs_lookup paths key :
  _reconstruct_reqs_from_paths paths !! key
  = bump None (request_volumes key paths).
Proof.
  unfold _reconstruct_reqs_from_paths, request_volumes.
  rewrite <-(lookup_empty (M:=gmap (Node * Node)) key).
  apply (accumulate_lookup (λ path, (src path, dst path)) volume).
Qed.

Lemma actual_lookup paths key :
  foldl add_actual ∅ paths !! key = bump None (request_volumes key paths).
Proof.
  unfold request_volumes.
  rewrite <-(lookup_empty (M:=gmap (Node * Node)) key).
  apply (accumulate_lookup (λ path, (src path, dst path)) volume).
Qed.

(** ** Findings *)

Lemma foldl_ext {A B} (f g : B → A → B) (acc : B) (l : list A) :
  (∀ acc x, f acc x = g acc x) → foldl f acc l = foldl g acc l.
Proof.
  intros Hfg. revert acc. induction l as [|x l IH]; intros acc; simpl; [done|].
  by rewrite Hfg, IH.
Qed.

Lemma foldl_append {A B} (g : A → list B) (acc : list B) (l : list A) :
  foldl (λ acc x, acc ++ g x) acc l = acc ++ l ≫= g.
Proof.
  revert acc. induction l as [|x l IH]; intros acc; simpl.
  - by rewrite app_nil_r.
  - by rewrite IH, <-app_assoc.
Qed.

Lemma default_bump (l : list Qc) : default 0 (bump None l) = Qcsum l.
Proof. destruct l as [|x l]; [done|]. unfold bump. simpl. ring. Qed.

Lemma validate_coverage_bind s (df_tare : list ((Node * Node) * Qc)) :
  validate_coverage s df_tare = df_tare ≫= coverage_finding (paths s).
Proof.
  unfold validate_coverage.
  rewrite (foldl_ext _ (λ acc entry, acc ++ coverage_finding (paths s) entry));
    [by rewrite foldl_append|].
  intros errors entry. unfold check_request, coverage_finding.
  rewrite actual_lookup, default_bump.
  case_decide; [done|]. by rewrite app_nil_r.
Qed.

Lemma visit_transits_flows offices_df (v : Qc) (st : TransferAcc Node)
    (nodes : list Node) :
  let st' := foldl (visit_transit offices_df v) st nodes in
  node_in_flow st'
  = foldl (λ d visit, <[visit.1 := default 0 (d !! visit.1) + visit.2]> d)
          (node_in_flow st) ((λ node, (node, v)) <$> nodes)
  ∧ node_out_flow st'
    = foldl (λ d visit, <[visit.1 := default 0 (d !! visit.1) + visit.2]> d)
            (node_out_flow st) ((λ node, (node, v)) <$> nodes).
Proof.
  revert st. induction nodes as [|node nodes IH]; intros st; [done|].
  simpl. destruct (IH (visit_transit offices_df v st node)) as [-> ->]. done.
Qed.

Lemma visit_paths_flows offices_df (st : TransferAcc Node) paths :
  let st' := foldl (visit_path offices_df) st paths in
  node_in_flow st'
  = foldl (λ d visit, <[visit.1 := default 0 (d !! visit.1) + visit.2]> d)
          (node_in_flow st) (transit_visits paths)
  ∧ node_out_flow st'
    = foldl (λ d visit, <[visit.1 := default 0 (d !! visit.1) + visit.2]> d)
            (node_out_flow st) (transit_visits paths).
Proof.
  revert st. induction paths as [|path paths IH]; intros st; [done|].
  unfold transit_visits. rewrite bind_cons, !foldl_app.
  fold (transit_visits paths). cbn [foldl].
  destruct (IH (visit_path offices_df st path)) as [-> ->].
  destruct (visit_transits_flows offices_df (volume path) st
              (transit_nodes (path_nodes path))) as [Hin Hout].
  unfold visit_path. by rewrite Hin, Hout.
Qed.

Lemma flows_lookup (d : gmap Node Qc) paths (node : Node) :
  d = foldl (λ d visit, <[visit.1 := default 0 (d !! visit.1) + visit.2]> d)
            ∅ (transit_visits paths) →
  d !! node = transit_volume node paths.
Proof.
  intros ->. rewrite (accumulate_lookup fst snd), lookup_empty.
  unfold transit_volume, transit_volumes.
  destruct (snd <$> filter _ _) as [|x l]; [done|].
  unfold bump. simpl. f_equal. ring.
Qed.

Lemma check_flow_finding (d : gmap Node Qc) dir (node : Node) (transfer_max : Qc) :
  check_flow d dir node transfer_max
  = direction_finding node dir (d !! node) transfer_max.
Proof. done. Qed.

Lemma transfer_violations_bind paths offices_df :
  (_calculate_transfer_costs paths offices_df).2
  = match offices_df with
    | Some offices => offices ≫= node_findings paths
    | None => []
    end.
Proof.
  unfold _calculate_transfer_costs. simpl.
  destruct offices_df as [offices|]; [|done].
  set (st := foldl _ _ paths).
  destruct (visit_paths_flows (Some offices)
              {| total_transfer_cost := 0; node_in_flow := ∅; node_out_flow := ∅ |}
              paths) as [Hin Hout].
  simpl in Hin, Hout. fold st in Hin, Hout.
  rewrite (foldl_ext _ (λ acc entry, acc ++ node_findings paths entry));
    [by rewrite foldl_append|].
  intros violations entry. unfold check_office, node_findings.
  rewrite !check_flow_finding, <-app_assoc.
  by rewrite (flows_lookup _ paths _ Hin), (flows_lookup _ paths _ Hout).
Qed.

(** ** Values of a dictionary *)

Lemma Forall_values {K V} `{Countable K} (P : V → Prop) (d : gmap K V) :
  (∀ k x, d !! k = Some x → P x) → Forall P (values d).
Proof.
  intros HP. unfold values. apply Forall_fmap, Forall_forall.
  intros [k x] Hin. apply elem_of_map_to_list in Hin. simpl. eauto.
Qed.

Lemma values_empty {K V} `{Countable K} : values (∅ : gmap K V) = [].
Proof. unfold values. by rewrite map_to_list_empty. Qed.

(** ** Volumes that are not negative *)


Lemma contributions_nonneg paths key :
  Forall (λ path, 0 ≤ volume path) paths →
  Forall (λ x, 0 ≤ x) (contributions key paths).*2.
Proof.
  intros Hvol. apply Forall_fmap, Forall_forall. intros req Hreq.
  unfold contributions in Hreq. apply list_elem_of_bind in Hreq as (path & Hreq & Hpath).
  unfold path_contributions in Hreq.
  apply list_elem_of_fmap in Hreq as (e & -> & _). simpl.
  rewrite Forall_forall in Hvol. by apply Hvol.
Qed.

Lemma accumulated_volume_nonneg matrix_df paths key (leg : LegAcc Node) :
  Forall (λ path, 0 ≤ volume path) paths →
  (accumulate_legs matrix_df paths).1 !! key = Some leg →
  0 ≤ acc_sum_volume leg.
Proof.
  intros Hvol. rewrite accumulate_legs_lookup.
  pose proof (contributions_nonneg paths key Hvol) as Hc.
  destruct (contributions key paths) as [|req l]; [done|].
  destruct (matrix_df !! key) as [row|]; [|done].
  simpl. intros [= <-]. simpl. by apply (Qcsum_nonneg (req.2 :: l.*2)).
Qed.

(** The vehicle counts have the sign of the capacity. *)
Lemma vehicles_sign matrix_df paths (vehicle_capacity : Qc) :
  Forall (λ path, 0 ≤ volume path) paths →
  vehicle_capacity ≠ 0 →
  let total :=
    Zsum (vehicles <$> values (with_vehicles vehicle_capacity
                                 <$> (accumulate_legs matrix_df paths).1)) in
  (0 < vehicle_capacity ∧ (0 ≤ total)%Z) ∨ (vehicle_capacity < 0 ∧ (total ≤ 0)%Z).
Proof.
  intros Hvol Hcap total.
  destruct (Qclt_le_dec 0 vehicle_capacity) as [Hpos|Hneg].
  - left. split; [done|]. apply Zsum_nonneg, Forall_fmap, Forall_values.
    intros key leg. rewrite lookup_fmap.
    destruct (_ !! key) as [acc|] eqn:Hacc; [|done].
    simpl. intros [= <-]. simpl. apply ceil_nonneg, Qcdiv_nonneg; [|done].
    by eapply accumulated_volume_nonneg.
  - assert (vehicle_capacity < 0) as Hlt.
    { apply Qcle_lt_or_eq in Hneg as [?|?]; done. }
    right. split; [done|]. apply Zsum_nonpos, Forall_fmap, Forall_values.
    intros key leg. rewrite lookup_fmap.
    destruct (_ !! key) as [acc|] eqn:Hacc; [|done].
    simpl. intros [= <-]. simpl. apply ceil_nonpos, Qcdiv_nonpos; [|done].
    by eapply accumulated_volume_nonneg.
Qed.

(** ** Metrics *)

Lemma pydiv_ok (a b : Qc) : b ≠ 0 → pydiv a b = Ok (a / b).
Proof. intros Hb. unfold pydiv. by rewrite decide_False. Qed.

Lemma pydiv_pos (a b : Qc) : 0 < b → pydiv a b = Ok (a / b).
Proof. intros Hb. apply pydiv_ok. intros ->. by apply Qclt_not_eq in Hb. Qed.

Lemma size_ne_0 (reqs : gmap (Node * Node) Qc) :
  reqs ≠ ∅ → Qc_of_Z (Z.of_nat (size reqs)) ≠ 0.
Proof.
  intros Hne Hsize. rewrite <-Z2Qc_inj_0 in Hsize.
  apply Z2Qc_inj in Hsize. apply map_size_non_empty_iff in Hne. lia.
Qed.

(** None of the guarded divisions of [_compute_metrics] can raise. *)
Lemma compute_metrics_ok paths (vehicle_capacity : Qc) matrix_df
    (offices_df : option (list (Node * OfficeRow)))
    (transport_legs : gmap (Node * Node) (Leg Node))
    (reqs : gmap (Node * Node) Qc) :
  _compute_metrics paths vehicle_capacity matrix_df offices_df transport_legs reqs
  = Ok (metrics paths vehicle_capacity matrix_df offices_df transport_legs reqs).
Proof.
  unfold _compute_metrics, metrics.
  destruct (decide (reqs ≠ ∅)) as [Hreqs|Hreqs];
    [rewrite !(pydiv_ok _ (Qc_of_Z (Z.of_nat (size reqs)))) by (by apply size_ne_0)|];
    (destruct (decide (0 < Qcsum (values reqs))) as [Hsum|Hsum];
       [rewrite (pydiv_pos _ _ Hsum)|]);
    (destruct (decide (0 < Qc_of_Z (Zsum (vehicles <$> values transport_legs))
                           * vehicle_capacity)) as [Hcap|Hcap];
       [rewrite (pydiv_pos _ _ Hcap)|]);
    (destruct (decide (0 < Qcsum (volume <$> paths))) as [Hvol|Hvol];
       [rewrite (pydiv_pos _ _ Hvol)|]);
    reflexivity.
Qed.

(** The constructor, in closed form. *)
Lemma Solution_init_inv paths (vehicle_capacity : Qc) matrix_df offices_df s log :
  Solution_init paths vehicle_capacity matrix_df offices_df = Ok (s, log) →
  s = metrics paths vehicle_capacity matrix_df offices_df
        (with_vehicles vehicle_capacity <$> (accumulate_legs matrix_df paths).1)
        (_reconstruct_reqs_from_paths paths)
  ∧ log = unresolved_edges matrix_df paths.
Proof.
  unfold Solution_init.
  destruct (_reconstruct_transport_legs_from_paths _ _ _) as [[legs log']|e] eqn:Hlegs;
    simpl; [|done].
  apply transport_legs_inv in Hlegs as [-> ->].
  rewrite compute_metrics_ok. simpl. by intros [= <- <-].
Qed.

(** With capacity 0 the constructor returns only when no leg was resolved. *)
Lemma Solution_init_zero paths matrix_df offices_df :
  Solution_init paths 0 matrix_df offices_df
  = if decide ((accumulate_legs matrix_df paths).1 = ∅)
    then Ok (metrics paths 0 matrix_df offices_df ∅
               (_reconstruct_reqs_from_paths paths),
             unresolved_edges matrix_df paths)
    else Raise ZeroDivisionError.
Proof.
  unfold Solution_init, _reconstruct_transport_legs_from_paths.
  rewrite set_all_vehicles_zero. case_decide; simpl; [|done].
  by rewrite compute_metrics_ok, accumulate_legs_log.
Qed.

Lemma Solution_init_ok paths (vehicle_capacity : Qc) matrix_df offices_df :
  vehicle_capacity ≠ 0 →
  Solution_init paths vehicle_capacity matrix_df offices_df
  = Ok (metrics paths vehicle_capacity matrix_df offices_df
          (with_vehicles vehicle_capacity <$> (accumulate_legs matrix_df paths).1)
          (_reconstruct_reqs_from_paths paths),
        unresolved_edges matrix_df paths).
Proof.
  intros Hcap. unfold Solution_init.
  rewrite transport_legs_ok by done. simpl.
  by rewrite compute_metrics_ok.
Qed.

(** ** Request keys *)

Lemma reqs_dom paths :
  dom (_reconstruct_reqs_from_paths paths)
  = (list_to_set (request_keys paths) : gset (Node * Node)).
Proof.
  apply set_eq. intros key.
  rewrite elem_of_dom, reqs_lookup, elem_of_list_to_set.
  unfold request_keys, request_volumes. rewrite list_elem_of_fmap. split.
  - intros Hsome.
    destruct (filter (λ path, (src path, dst path) = key) paths)
      as [|path l] eqn:Hfilter.
    { simpl in Hsome. by destruct Hsome. }
    assert (path ∈ filter (λ path, (src path, dst path) = key) paths) as Hin
      by (rewrite Hfilter; left).
    apply list_elem_of_filter in Hin as [<- Hin]. eauto.
  - intros (path & -> & Hin).
    assert (path ∈ filter (λ p, (src p, dst p) = (src path, dst path)) paths)
      as Hfilter by (by apply list_elem_of_filter).
    destruct (filter _ paths) as [|path' l].
    { by apply not_elem_of_nil in Hfilter. }
    simpl. eauto.
Qed.

Lemma reqs_size paths :
  size (_reconstruct_reqs_from_paths paths)
  = size (list_to_set (request_keys paths) : gset (Node * Node)).
Proof. by rewrite <-reqs_dom, size_dom. Qed.

Lemma reqs_empty paths : _reconstruct_reqs_from_paths paths = ∅ ↔ paths = [].
Proof.
  split; [|by intros ->].
  intros Hempty. destruct paths as [|path paths]; [done|].
  assert ((src path, dst path) ∈ dom (_reconstruct_reqs_from_paths (path :: paths)))
    as Hin.
  { rewrite reqs_dom. unfold request_keys. set_solver. }
  rewrite Hempty, dom_empty_L in Hin. set_solver.
Qed.

(** ** The structured form *)

Lemma flows_paths_raise (e : PyExc) (flows : list (Flow Node)) :
  foldl (λ acc flow, paths ← acc; path ← flow_path flow; Ok (paths ++ [path]))
        (Raise e) flows = Raise e.
Proof. induction flows as [|flow flows IH]; [done|]. simpl. apply IH. Qed.

Lemma flow_path_cases (flow : Flow Node) :
  legs flow ≠ [] →
  (endpoints_mismatch flow ∧ flow_path flow = Raise ValueError)
  ∨ (¬ endpoints_mismatch flow ∧ flow_path flow = Ok (accepted_path flow)).
Proof.
  intros Hlegs. unfold flow_path, endpoints_mismatch, accepted_path,
    reconstructed_path.
  destruct (legs flow) as [|first rest] eqn:Hl; [done|].
  case_decide; [by left|by right].
Qed.

Lemma flows_paths_cases (acc : list (Path Node)) (flows : list (Flow Node)) :
  Forall (λ flow, legs flow ≠ []) flows →
  let r := foldl (λ acc flow, paths ← acc; path ← flow_path flow;
                              Ok (paths ++ [path])) (Ok acc) flows in
  (Exists endpoints_mismatch flows ∧ r = Raise ValueError)
  ∨ (¬ Exists endpoints_mismatch flows ∧ r = Ok (acc ++ (accepted_path <$> flows))).
Proof.
  intros Hlegs. revert acc.
  induction Hlegs as [|flow flows Hflow _ IH]; intros acc; simpl.
  - right. split; [by intros ?%Exists_nil|]. by rewrite app_nil_r.
  - destruct (flow_path_cases flow Hflow) as [[Hbad ->]|[Hgood ->]]; simpl.
    + left. split; [by left|]. apply flows_paths_raise.
    + destruct (IH (acc ++ [accepted_path flow])) as [[Hbad ->]|[Hrest ->]].
      * left. split; [by right|done].
      * right. split; [|by rewrite <-app_assoc].
        intros [?|?]%Exists_cons; done.
Qed.

Lemma Solution_init_raise paths (vehicle_capacity : Qc) matrix_df offices_df e :
  Solution_init paths vehicle_capacity matrix_df offices_df = Raise e →
  e = ZeroDivisionError
  ∧ vehicle_capacity = 0
  ∧ (accumulate_legs matrix_df paths).1 ≠ ∅.
Proof.
  destruct (decide (vehicle_capacity = 0)) as [->|Hcap].
  - rewrite Solution_init_zero. case_decide; [done|]. by intros [= <-].
  - by rewrite Solution_init_ok.
Qed.

(** ** The flat-path form *)

Lemma edges_targets (node : Node) (rest : list Node) :
  snd <$> edges (node :: rest) = rest.
Proof.
  revert node. induction rest as [|next rest IH]; intros node; [done|].
  simpl. f_equal. apply IH.
Qed.

Lemma flow_path_path_flow path :
  well_formed path → flow_path (path_flow path) = Ok path.
Proof.
  intros (Hlen & Hhead & Hlast). destruct path as [a b v nodes].
  unfold flow_path, path_flow.
  cbn [legs src_office_id dst_office_id avg_day_polybox_qty
       src dst volume path_nodes] in *.
  destruct nodes as [|first [|second rest]]; simpl in Hlen; [lia..|].
  change (edges (first :: second :: rest))
    with ((first, second) :: edges (second :: rest)).
  rewrite !fmap_cons.
  cbn [from_office_id to_office_id fst snd].
  rewrite <-list_fmap_compose.
  change (to_office_id ∘ _) with (snd : Node * Node → Node).
  rewrite edges_targets.
  rewrite decide_False; [done|].
  intros [Hne|Hne]; by destruct Hne.
Qed.

Lemma flows_paths_path_flows (acc : list (Path Node)) paths :
  Forall well_formed paths →
  foldl (λ acc flow, paths ← acc; path ← flow_path flow; Ok (paths ++ [path]))
        (Ok acc) (path_flow <$> paths) = Ok (acc ++ paths).
Proof.
  intros Hwf. revert acc.
  induction Hwf as [|path paths Hpath _ IH]; intros acc; simpl.
  - by rewrite app_nil_r.
  - rewrite flow_path_path_flow by done. simpl.
    by rewrite IH, <-app_assoc.
Qed.

Section FilesFacts.
Context {Text : Type}.
Context (py_str : list Node → Text) (py_eval : Text → result (list Node)).
Hypothesis eval_str : ∀ nodes, py_eval (py_str nodes) = Ok nodes.

Lemma row_flow_path_row path :
  row_flow py_eval (path_row py_str path) = Ok (path_flow path).
Proof. unfold row_flow, path_row. simpl. by rewrite eval_str. Qed.

Lemma add_rows_path_rows (st : list (Flow Node) * list PyExc) paths :
  foldl (add_row py_eval) st (path_row py_str <$> paths)
  = (st.1 ++ (path_flow <$> paths), st.2).
Proof.
  revert st. induction paths as [|path paths IH]; intros st; simpl.
  - rewrite app_nil_r. by destruct st.
  - rewrite IH. unfold add_row. rewrite row_flow_path_row. simpl.
    by rewrite <-app_assoc.
Qed.

End FilesFacts.

End AnalyzerFacts.

(** ** Additions regrouped *)

Section Regrouping.
Context {Key : Type} `{EqDecision Key} {Num : Type}.
Context (zero : Num) (add : Num → Num → Num).
Hypothesis add_0_l : ∀ x, add zero x = x.
Hypothesis add_comm : ∀ x y, add x y = add y x.
Hypothesis add_assoc : ∀ x y z, add x (add y z) = add (add x y) z.

#[local] Arguments AsComputed.py_sum : simpl never.

Lemma py_sum_nil : AsComputed.py_sum zero add [] = zero.
Proof. done. Qed.

Lemma py_sum_from (a : Num) (l : list Num) :
  foldl add a l = add a (AsComputed.py_sum zero add l).
Proof.
  unfold AsComputed.py_sum. revert a.
  induction l as [|y l IH]; intros a; simpl.
  - by rewrite add_comm, add_0_l.
  - rewrite (IH (add a y)), (IH (add zero y)), add_0_l. by rewrite add_assoc.
Qed.

Lemma py_sum_cons (x : Num) (l : list Num) :
  AsComputed.py_sum zero add (x :: l) = add x (AsComputed.py_sum zero add l).
Proof.
  unfold AsComputed.py_sum at 1. simpl. by rewrite py_sum_from, add_0_l.
Qed.

Lemma py_sum_add_req (reqs : list (Key * Num)) (key : Key) (volume : Num) :
  AsComputed.py_sum zero add (AsComputed.add_req zero add reqs key volume).*2
  = add (AsComputed.py_sum zero add reqs.*2) volume.
Proof.
  induction reqs as [|[k x] reqs IH]; simpl.
  - by rewrite py_sum_cons, py_sum_nil, !add_0_l, add_comm, add_0_l.
  - case_decide; simpl; rewrite !py_sum_cons.
    + by rewrite <-!add_assoc, (add_comm volume).
    + change (list_fmap _ _ snd ?l) with (l.*2). by rewrite IH, add_assoc.
Qed.

Lemma py_sum_reqs (reqs flows : list (Key * Num)) :
  AsComputed.py_sum zero add
    (foldl (λ reqs flow, AsComputed.add_req zero add reqs flow.1 flow.2)
       reqs flows).*2
  = add (AsComputed.py_sum zero add reqs.*2)
        (AsComputed.py_sum zero add flows.*2).
Proof.
  revert reqs. induction flows as [|[key volume] flows IH]; intros reqs; simpl.
  - by rewrite py_sum_nil, add_comm, add_0_l.
  - rewrite IH, py_sum_add_req, py_sum_cons. by rewrite add_assoc.
Qed.

End Regrouping.

(** On exact numbers the dict in insertion order holds the entries of the
    request aggregate map. *)
Lemma add_req_in_order {Node : Type} `{Countable Node}
    (reqs : list ((Node * Node) * Qc)) (path : Path Node) :
  list_to_map (AsComputed.add_req 0 Qcplus reqs (src path, dst path)
                 (volume path))
  = add_req (list_to_map reqs) path.
Proof.
  unfold add_req.
  induction reqs as [|[k x] reqs IH]; simpl.
  - by rewrite lookup_empty.
  - case_decide as Hk; simpl.
    + subst k. by rewrite lookup_insert_eq, insert_insert_eq.
    + rewrite IH, lookup_insert_ne by done. by apply insert_insert_ne.
Qed.

Lemma reqs_in_order {Node : Type} `{Countable Node} (paths : list (Path Node)) :
  list_to_map (AsComputed._reconstruct_reqs_from_paths 0 Qcplus
                 (key_volume <$> paths))
  = _reconstruct_reqs_from_paths paths.
Proof.
  unfold AsComputed._reconstruct_reqs_from_paths, _reconstruct_reqs_from_paths.
  change (∅ : gmap (Node * Node) Qc) with (list_to_map ([] : list ((Node * Node) * Qc)) : gmap (Node * Node) Qc).
  generalize ([] : list ((Node * Node) * Qc)).
  induction paths as [|path paths IH]; intros reqs; simpl; [done|].
  by rewrite IH, add_req_in_order.
Qed.

(** * Properties of the specification *)

Section Claims.
Context {Node : Type} `{Countable Node}.
Implicit Types (path : Path Node) (paths : list (Path Node)).
Implicit Types (key : Node * Node) (matrix_df : gmap (Node * Node) MatrixRow).
Implicit Types (offices_df : option (list (Node * OfficeRow))).
Implicit Types (s : Solution Node) (log : Log Node).

(** C1. In a constructed analyzer every leg of the leg map satisfies the three
    derived-field equations: [sum_volume] is the sum of the volumes in
    [reqs], [vehicles] is the ceiling of [sum_volume / vehicle_capacity], the
    least integer not below it (with capacity 90: volume 91 gives 2 vehicles,
    90 gives 1 and 0 gives 0), and [sum_cost] is
    [vehicles * cost_per_km * distance / 1000]. *)
Theorem transport_leg_invariant paths (vehicle_capacity : Qc) matrix_df
    offices_df s log key (leg : Leg Node) :
  Solution_init paths vehicle_capacity matrix_df offices_df = Ok (s, log) →
  transport_legs s !! key = Some leg →
  sum_volume leg = Qcsum (leg_reqs leg).*2
  ∧ vehicles leg = ceil (sum_volume leg / vehicle_capacity)
  ∧ Qc_of_Z (vehicles leg - 1) < sum_volume leg / vehicle_capacity
  ∧ sum_volume leg / vehicle_capacity ≤ Qc_of_Z (vehicles leg)
  ∧ sum_cost leg
    = Qc_of_Z (vehicles leg) * cost_per_km leg * distance leg / Qc_of_Z 1000
  ∧ (vehicle_capacity = Qc_of_Z 90 →
       (sum_volume leg = Qc_of_Z 91 → vehicles leg = 2%Z)
       ∧ (sum_volume leg = Qc_of_Z 90 → vehicles leg = 1%Z)
       ∧ (sum_volume leg = Qc_of_Z 0 → vehicles leg = 0%Z)).
Proof.
  intros Hinit Hleg.
  apply Solution_init_inv in Hinit as [-> _]. simpl in Hleg.
  rewrite lookup_fmap, accumulate_legs_lookup in Hleg.
  destruct (contributions key paths) as [|req l]; [done|].
  destruct (matrix_df !! key) as [row|]; [|done].
  simpl in Hleg. injection Hleg as <-. simpl.
  split; [done|]. split; [done|].
  split; [apply ceil_bounds|]. split; [apply ceil_bounds|]. split; [done|].
  intros ->. unfold with_vehicles. simpl.
  repeat split; intros ->; by vm_compute.
Qed.

(** C2. A flow set with the single flow of path [A, B, C] and volume [v],
    both edges being in the edge reference, yields a leg map with exactly the
    legs (A,B) and (B,C); each holds the one contribution ((A,C), v) and has
    total volume [v]; the request aggregate of (A,C) is [v].  The two edges
    are different edges, and the vehicle capacity is not zero. *)
Theorem single_flow_legs (A B C : Node) (v vehicle_capacity : Qc) matrix_df
    offices_df (rowAB rowBC : MatrixRow) :
  vehicle_capacity ≠ 0 →
  (A, B) ≠ (B, C) →
  matrix_df !! (A, B) = Some rowAB →
  matrix_df !! (B, C) = Some rowBC →
  ∃ s log (legAB legBC : Leg Node),
    Solution_init [{| src := A; dst := C; volume := v; path_nodes := [A; B; C] |}]
                  vehicle_capacity matrix_df offices_df = Ok (s, log)
    ∧ transport_legs s = {[ (A, B) := legAB; (B, C) := legBC ]}
    ∧ leg_reqs legAB = [((A, C), v)] ∧ sum_volume legAB = v
    ∧ leg_reqs legBC = [((A, C), v)] ∧ sum_volume legBC = v
    ∧ reqs s !! (A, C) = Some v.
Proof.
  intros Hcap Hne HAB HBC.
  set (path := {| src := A; dst := C; volume := v; path_nodes := [A; B; C] |}).
  set (acc row := {| acc_distance := m_distance row; acc_time := m_time row;
                     acc_cost_per_km := m_price_per_km row;
                     acc_sum_volume := Qcsum [v];
                     acc_reqs := [((A, C), v)] |} : LegAcc Node).
  exists (metrics [path] vehicle_capacity matrix_df offices_df
            (with_vehicles vehicle_capacity <$> (accumulate_legs matrix_df [path]).1)
            (_reconstruct_reqs_from_paths [path])),
         (unresolved_edges matrix_df [path]),
         (with_vehicles vehicle_capacity (acc rowAB)),
         (with_vehicles vehicle_capacity (acc rowBC)).
  split; [by apply Solution_init_ok|]. simpl.
  repeat split; try done; try apply Qcplus_0_r.
  - apply map_eq. intros key.
    rewrite lookup_fmap, accumulate_legs_lookup.
    unfold contributions, path_contributions. simpl.
    rewrite !filter_cons, filter_nil.
    destruct (decide ((A, B) = key)) as [<-|HkAB].
    + rewrite decide_False by done. simpl.
      rewrite HAB, lookup_insert_eq. done.
    + rewrite lookup_insert_ne by done.
      destruct (decide ((B, C) = key)) as [<-|HkBC]; simpl.
      * rewrite HBC, lookup_singleton_eq. done.
      * by rewrite lookup_singleton_ne.
  - rewrite reqs_lookup. unfold request_volumes.
    rewrite filter_cons, decide_True by done. simpl. f_equal. ring.
Qed.

(** C3. When a flow's path contains an edge that the edge reference lacks,
    construction still completes: that edge is absent from the leg map and
    appears in the log, every resolvable edge of the same flow has a leg that
    aggregates all the contributions routed over it (the flow's among them),
    and the flow's whole volume is counted in the request aggregate of its
    (source, destination) key.  The vehicle capacity is not zero. *)
Theorem missing_edge_skipped paths (vehicle_capacity : Qc) matrix_df offices_df
    path (e : Node * Node) :
  vehicle_capacity ≠ 0 →
  path ∈ paths →
  e ∈ edges (path_nodes path) →
  matrix_df !! e = None →
  ∃ s log,
    Solution_init paths vehicle_capacity matrix_df offices_df = Ok (s, log)
    ∧ transport_legs s !! e = None
    ∧ e ∈ log
    ∧ (∀ e' row, e' ∈ edges (path_nodes path) → matrix_df !! e' = Some row →
         ∃ leg, transport_legs s !! e' = Some leg
           ∧ leg_reqs leg = contributions e' paths
           ∧ ((src path, dst path), volume path) ∈ leg_reqs leg
           ∧ sum_volume leg = Qcsum (contributions e' paths).*2
           ∧ distance leg = m_distance row
           ∧ time leg = m_time row
           ∧ cost_per_km leg = m_price_per_km row)
    ∧ reqs s !! (src path, dst path)
      = Some (Qcsum (request_volumes (src path, dst path) paths))
    ∧ volume path ∈ request_volumes (src path, dst path) paths.
Proof.
  intros Hcap Hpath He Hrow.
  eexists _, _. split; [by apply Solution_init_ok|]. simpl.
  assert (∀ e', e' ∈ edges (path_nodes path) →
            ((src path, dst path), volume path) ∈ contributions e' paths) as Hin.
  { intros e' He'. unfold contributions. apply list_elem_of_bind.
    exists path. split; [|done].
    unfold path_contributions. apply list_elem_of_fmap.
    exists e'. split; [done|]. by apply list_elem_of_filter. }
  assert (volume path ∈ request_volumes (src path, dst path) paths) as Hvol.
  { unfold request_volumes. apply list_elem_of_fmap.
    exists path. split; [done|]. by apply list_elem_of_filter. }
  repeat split.
  - rewrite lookup_fmap, accumulate_legs_lookup, Hrow.
    by destruct (contributions e paths).
  - unfold unresolved_edges. apply list_elem_of_bind.
    exists path. split; [|done]. by apply list_elem_of_filter.
  - intros e' row He' Hrow'.
    rewrite lookup_fmap, accumulate_legs_lookup, Hrow'.
    specialize (Hin e' He').
    destruct (contributions e' paths) as [|req l] eqn:Hc.
    { by apply not_elem_of_nil in Hin. }
    simpl. eexists. split; [done|]. simpl. done.
  - rewrite reqs_lookup.
    destruct (request_volumes (src path, dst path) paths) as [|x l] eqn:Hreq.
    { by apply not_elem_of_nil in Hvol. }
    unfold bump. simpl. f_equal. ring.
  - done.
Qed.

(** C4. The coverage check returns, in table order, one finding per row
    (request key, expected volume) of the reference table whose actual
    aggregated flow volume (0 when the key has no flows) differs from the
    expected one by strictly more than 1e-3; the finding names the key and
    both volumes.  Expected 50 with actual 49.9995 gives no finding, actual
    49.9 gives exactly one. *)
Theorem validate_coverage_findings :
  (∀ s (df_tare : list ((Node * Node) * Qc)),
     validate_coverage s df_tare
     = df_tare ≫= λ entry,
         let actual := Qcsum (request_volumes entry.1 (paths s)) in
         if decide (dec 1 3 < Qcabs (actual - entry.2))
         then [{| ce_key := entry.1; ce_expected := entry.2; ce_actual := actual |}]
         else [])
  ∧ (∀ key paths, request_volumes key paths = [] →
       Qcsum (request_volumes key paths) = 0)
  ∧ (∀ s key,
       Qcsum (request_volumes key (paths s)) = dec 499995 4 →
       validate_coverage s [(key, Qc_of_Z 50)] = [])
  ∧ (∀ s key,
       Qcsum (request_volumes key (paths s)) = dec 499 1 →
       validate_coverage s [(key, Qc_of_Z 50)]
       = [{| ce_key := key; ce_expected := Qc_of_Z 50; ce_actual := dec 499 1 |}]).
Proof.
  split; [|split; [|split]].
  - intros s df_tare. apply validate_coverage_bind.
  - by intros key paths ->.
  - intros s key Hact. rewrite validate_coverage_bind.
    unfold coverage_finding. simpl. rewrite Hact. by vm_compute.
  - intros s key Hact. rewrite validate_coverage_bind.
    unfold coverage_finding. simpl. rewrite Hact. by vm_compute.
Qed.

(** C5. For every row of the node table the capacity check compares the
    inbound and the outbound transit volume of the node, each on its own,
    with the node's [transfer_max], and reports one finding per direction
    whose volume strictly exceeds it, naming the node, the direction, the
    volume and the capacity; a direction within the limit gives none.  With
    capacity 10 and inbound volume 15 there is exactly one inbound finding,
    with 15 and 10. *)
Theorem node_capacity_findings :
  (∀ paths (vehicle_capacity : Qc) matrix_df offices_df s log,
     Solution_init paths vehicle_capacity matrix_df offices_df = Ok (s, log) →
     transfer_violations s
     = match offices_df with
       | Some offices => offices ≫= node_findings paths
       | None => []
       end)
  ∧ (∀ paths (node : Node) (row : OfficeRow) dir,
       filter (λ v, v_direction v = dir) (node_findings paths (node, row))
       = match transit_volume node paths with
         | Some flow =>
             if decide (transfer_max row < flow)
             then [{| v_node := node; v_direction := dir;
                      v_flow := flow; v_transfer_max := transfer_max row |}]
             else []
         | None => []
         end)
  ∧ (∀ paths (node : Node) (row : OfficeRow),
       transit_volume node paths = Some (Qc_of_Z 15) →
       transfer_max row = Qc_of_Z 10 →
       filter (λ v, v_direction v = Inbound) (node_findings paths (node, row))
       = [{| v_node := node; v_direction := Inbound;
             v_flow := Qc_of_Z 15; v_transfer_max := Qc_of_Z 10 |}]).
Proof.
  assert (∀ paths (node : Node) (row : OfficeRow) dir,
       filter (λ v, v_direction v = dir) (node_findings paths (node, row))
       = direction_finding node dir (transit_volume node paths) (transfer_max row))
    as Hdir.
  { intros paths node row dir. unfold node_findings, direction_finding. simpl.
    destruct (transit_volume node paths) as [flow|]; [|done].
    case_decide; [|done].
    rewrite filter_app, !filter_cons, !filter_nil. simpl.
    destruct dir; by repeat case_decide. }
  split; [|split].
  - intros paths vehicle_capacity matrix_df offices_df s log Hinit.
    apply Solution_init_inv in Hinit as [-> _]. simpl.
    apply transfer_violations_bind.
  - apply Hdir.
  - intros paths node row Hflow Hmax.
    rewrite Hdir, Hflow, Hmax. by vm_compute.
Qed.

(** C6. [vehicle_utilization] is
    [min(total_volume / (total_vehicles * vehicle_capacity) * 100, 100)] when
    [total_vehicles] is not zero and 0 when it is; it never exceeds 100.
    Volumes are not negative, and the constructor returns for every nonzero
    capacity. *)
Theorem vehicle_utilization_clamped paths (vehicle_capacity : Qc) matrix_df
    offices_df :
  Forall (λ path, 0 ≤ volume path) paths →
  (vehicle_capacity ≠ 0 →
     ∃ s log, Solution_init paths vehicle_capacity matrix_df offices_df = Ok (s, log))
  ∧ (∀ s log,
       Solution_init paths vehicle_capacity matrix_df offices_df = Ok (s, log) →
       vehicle_utilization s
       = (if decide (total_vehicles s = 0%Z) then 0
          else Qcmin (total_volume s
                        / (Qc_of_Z (total_vehicles s) * vehicle_capacity)
                        * Qc_of_Z 100)
                     (Qc_of_Z 100))
       ∧ vehicle_utilization s ≤ Qc_of_Z 100).
Proof.
  intros Hvol. split.
  { intros Hcap. eexists _, _. by apply Solution_init_ok. }
  intros s log Hinit. split.
  - destruct (decide (vehicle_capacity = 0)) as [->|Hcap].
    + rewrite Solution_init_zero in Hinit. case_decide; [|done].
      injection Hinit as <- <-. simpl.
      rewrite values_empty. simpl. by vm_compute.
    + apply Solution_init_inv in Hinit as [-> _]. simpl.
      pose proof (capacity_pos_iff _ _
                    (vehicles_sign matrix_df paths vehicle_capacity Hvol Hcap))
        as Hiff.
      simpl in Hiff.
      destruct (decide (Zsum _ = 0%Z)) as [Hzero|Hused].
      * rewrite decide_False; [by vm_compute|].
        rewrite Hiff. by intros Hne.
      * rewrite decide_True; [done|]. by apply Hiff.
  - apply Solution_init_inv in Hinit as [-> _]. simpl. apply Qcmin_le_r.
Qed.

(** C10 (amended). Request aggregation preserves volume where the additions
    are exact.  For numbers whose addition is associative and commutative
    with 0 neutral, as the integers are, the sum of the request aggregates,
    each the sum of the volumes of its flows, equals [total_volume], the sum
    of the flow volumes from the left; the [avg_delivery_time_per_volume]
    that the code computes from the sum of the request aggregates is then
    [total_time / total_volume] under the same guard. *)
Theorem request_aggregation_preserves_volume {Key : Type} `{EqDecision Key}
    {Num : Type} (zero : Num) (add div : Num → Num → Num) (gt0 : Num → bool)
    (flows : list (Key * Num)) (total_time : Num) :
  (∀ x, add zero x = x) →
  (∀ x y, add x y = add y x) →
  (∀ x y z, add x (add y z) = add (add x y) z) →
  AsComputed.py_sum zero add
    (AsComputed._reconstruct_reqs_from_paths zero add flows).*2
  = AsComputed.total_volume zero add flows
  ∧ AsComputed.avg_delivery_time_per_volume zero add div gt0 total_time
      (AsComputed._reconstruct_reqs_from_paths zero add flows)
    = if gt0 (AsComputed.total_volume zero add flows)
      then div total_time (AsComputed.total_volume zero add flows)
      else zero.
Proof.
  intros add_0_l add_comm add_assoc.
  assert (AsComputed.py_sum zero add
            (AsComputed._reconstruct_reqs_from_paths zero add flows).*2
          = AsComputed.total_volume zero add flows) as Hsum.
  { unfold AsComputed._reconstruct_reqs_from_paths, AsComputed.total_volume.
    rewrite (py_sum_reqs zero add add_0_l add_comm add_assoc).
    change ([] : list (Key * Num)).*2 with ([] : list Num).
    by rewrite (py_sum_nil zero add), add_0_l. }
  split; [done|].
  unfold AsComputed.avg_delivery_time_per_volume. by rewrite Hsum.
Qed.


(** C9. Loading the structured form reconstructs the path of every flow as
    the first leg's [from_office_id] followed by every leg's [to_office_id];
    it fails with the rejection error, [ValueError], if and only if the
    reconstructed path of some flow does not start at the flow's
    [src_office_id] or does not end at its [dst_office_id]; on success every
    path has matched endpoints.  Every flow has at least one leg. *)
Theorem load_rejects_mismatched_endpoints (flows : list (Flow Node))
    matrix_df offices_df (vehicle_capacity : Qc) :
  Forall (λ flow, legs flow ≠ []) flows →
  (load_from_external_format (Some flows) matrix_df offices_df vehicle_capacity
     = Raise ValueError
   ↔ Exists (λ flow,
        head (reconstructed_path flow) ≠ Some (src_office_id flow)
        ∨ last (reconstructed_path flow) ≠ Some (dst_office_id flow)) flows)
  ∧ (∀ s log,
       load_from_external_format (Some flows) matrix_df offices_df vehicle_capacity
         = Ok (s, log) →
       path_nodes <$> paths s = reconstructed_path <$> flows
       ∧ Forall (λ path, head (path_nodes path) = Some (src path)
                         ∧ last (path_nodes path) = Some (dst path)) (paths s))
  ∧ (vehicle_capacity ≠ 0 →
     ¬ Exists (λ flow,
          head (reconstructed_path flow) ≠ Some (src_office_id flow)
          ∨ last (reconstructed_path flow) ≠ Some (dst_office_id flow)) flows →
     ∃ s log,
       load_from_external_format (Some flows) matrix_df offices_df vehicle_capacity
         = Ok (s, log)).
Proof.
  intros Hlegs. unfold load_from_external_format, flows_paths. simpl.
  destruct (flows_paths_cases [] flows Hlegs) as [[Hbad ->]|[Hgood ->]]; simpl.
  - split; [done|]. split; [done|]. intros _ Hnone. by destruct Hnone.
  - split; [|split].
    + split; [|done]. intros Hraise.
      by apply Solution_init_raise in Hraise as [? _].
    + intros s log Hinit.
      assert (paths s = accepted_path <$> flows) as ->.
      { destruct (decide (vehicle_capacity = 0)) as [->|Hcap].
        - rewrite Solution_init_zero in Hinit. case_decide; [|done].
          by injection Hinit as <- <-.
        - by apply Solution_init_inv in Hinit as [-> _]. }
      split; [by rewrite <-list_fmap_compose|].
      apply Forall_fmap, Forall_forall. intros flow Hflow. simpl.
      destruct (decide (head (reconstructed_path flow) = Some (src_office_id flow)))
        as [Hhead|Hhead];
        destruct (decide (last (reconstructed_path flow) = Some (dst_office_id flow)))
          as [Hlast|Hlast]; [done|..];
        destruct Hgood; apply Exists_exists; exists flow;
          (split; [done|]); unfold endpoints_mismatch; auto.
    + intros Hcap _. eexists _, _. by apply Solution_init_ok.
Qed.

(** C8 (amended). For every analyzer whose flow set is not empty and whose
    flows are well formed, the rows that [save_to_csv] writes to [paths.csv],
    converted to the structured form by the flat-path adapter and loaded by
    [load_from_external_format] with the same references and vehicle
    capacity, construct the same analyzer, with the same metrics.  [eval]
    reads back the node list that [str] wrote. *)
Theorem flat_path_round_trip {Text : Type}
    (py_str : list Node → Text) (py_eval : Text → result (list Node))
    (flow_set : list (Path Node)) (vehicle_capacity : Qc) matrix_df offices_df
    s log :
  (∀ nodes, py_eval (py_str nodes) = Ok nodes) →
  Solution_init flow_set vehicle_capacity matrix_df offices_df = Ok (s, log) →
  flow_set ≠ [] →
  Forall (λ path, (2 ≤ length (path_nodes path))%nat
                  ∧ head (path_nodes path) = Some (src path)
                  ∧ last (path_nodes path) = Some (dst path)) flow_set →
  ∃ rows,
    paths_csv (save_to_csv py_str s) = Some rows
    ∧ main_solution py_eval (CsvFile rows) matrix_df offices_df vehicle_capacity
      = Ok (s, log).
Proof.
  intros Heval Hinit Hne Hwf.
  assert (paths s = flow_set) as Hpaths.
  { destruct (decide (vehicle_capacity = 0)) as [->|Hcap].
    - rewrite Solution_init_zero in Hinit. case_decide; [|done].
      by injection Hinit as <- <-.
    - by apply Solution_init_inv in Hinit as [-> _]. }
  exists (path_row py_str <$> flow_set). split.
  - unfold save_to_csv. simpl. rewrite Hpaths. by rewrite decide_False.
  - unfold main_solution, load_solution, load_from_external_format. simpl.
    rewrite (add_rows_path_rows py_str py_eval Heval). simpl.
    unfold flows_paths. rewrite flows_paths_path_flows by done. simpl.
    done.
Qed.

End Claims.

(** * Instances *)

Lemma transport_leg_invariant_witness :
  ∃ s log leg,
    Solution_init [flow13 (Qc_of_Z 91)] (Qc_of_Z 90) matrix12 None = Ok (s, log)
    ∧ transport_legs s !! (1, 2)%Z = Some leg
    ∧ sum_volume leg = Qcsum (leg_reqs leg).*2
    ∧ vehicles leg = ceil (sum_volume leg / Qc_of_Z 90)
    ∧ Qc_of_Z (vehicles leg - 1) < sum_volume leg / Qc_of_Z 90
    ∧ sum_volume leg / Qc_of_Z 90 ≤ Qc_of_Z (vehicles leg)
    ∧ sum_cost leg
      = Qc_of_Z (vehicles leg) * cost_per_km leg * distance leg / Qc_of_Z 1000
    ∧ (Qc_of_Z 90 = Qc_of_Z 90 →
         (sum_volume leg = Qc_of_Z 91 → vehicles leg = 2%Z)
         ∧ (sum_volume leg = Qc_of_Z 90 → vehicles leg = 1%Z)
         ∧ (sum_volume leg = Qc_of_Z 0 → vehicles leg = 0%Z)).
Proof.
  eexists _, _, _. split; [vm_compute; reflexivity|].
  split; [vm_compute; reflexivity|].
  eapply (transport_leg_invariant [flow13 (Qc_of_Z 91)] (Qc_of_Z 90)
            matrix12 None _ _ (1, 2)%Z);
    vm_compute; reflexivity.
Defined.

Lemma single_flow_legs_witness :
  (Qc_of_Z 90 ≠ 0
   ∧ (1, 2)%Z ≠ (2, 3)%Z
   ∧ matrix123 !! (1, 2)%Z = Some row12
   ∧ matrix123 !! (2, 3)%Z = Some row23)
  ∧ ∃ s log (legAB legBC : Leg Z),
      Solution_init [{| src := 1%Z; dst := 3%Z; volume := Qc_of_Z 91;
                        path_nodes := [1; 2; 3]%Z |}]
                    (Qc_of_Z 90) matrix123 None = Ok (s, log)
      ∧ transport_legs s = {[ (1, 2)%Z := legAB; (2, 3)%Z := legBC ]}
      ∧ leg_reqs legAB = [((1, 3)%Z, Qc_of_Z 91)] ∧ sum_volume legAB = Qc_of_Z 91
      ∧ leg_reqs legBC = [((1, 3)%Z, Qc_of_Z 91)] ∧ sum_volume legBC = Qc_of_Z 91
      ∧ reqs s !! (1, 3)%Z = Some (Qc_of_Z 91).
Proof.
  assert (Qc_of_Z 90 ≠ 0) as Hcap by qc_neq.
  assert ((1, 2)%Z ≠ (2, 3)%Z) as Hne by discriminate.
  assert (matrix123 !! (1, 2)%Z = Some row12) as H12 by (vm_compute; reflexivity).
  assert (matrix123 !! (2, 3)%Z = Some row23) as H23 by (vm_compute; reflexivity).
  split; [done|].
  exact (single_flow_legs 1%Z 2%Z 3%Z (Qc_of_Z 91) (Qc_of_Z 90) matrix123 None
           row12 row23 Hcap Hne H12 H23).
Defined.

Lemma missing_edge_skipped_witness :
  (Qc_of_Z 90 ≠ 0
   ∧ flow13 (Qc_of_Z 91) ∈ [flow13 (Qc_of_Z 91)]
   ∧ (2, 3)%Z ∈ edges (path_nodes (flow13 (Qc_of_Z 91)))
   ∧ matrix12 !! (2, 3)%Z = None)
  ∧ ∃ s log,
      Solution_init [flow13 (Qc_of_Z 91)] (Qc_of_Z 90) matrix12 None = Ok (s, log)
      ∧ transport_legs s !! (2, 3)%Z = None
      ∧ (2, 3)%Z ∈ log
      ∧ is_Some (transport_legs s !! (1, 2)%Z)
      ∧ reqs s !! (1, 3)%Z = Some (Qc_of_Z 91).
Proof.
  assert (Qc_of_Z 90 ≠ 0) as Hcap by qc_neq.
  assert (flow13 (Qc_of_Z 91) ∈ [flow13 (Qc_of_Z 91)]) as Hpath by left.
  assert ((2, 3)%Z ∈ edges (path_nodes (flow13 (Qc_of_Z 91)))) as Hedge
    by (right; left).
  assert (matrix12 !! (2, 3)%Z = None) as Hrow by (vm_compute; reflexivity).
  split; [done|].
  destruct (missing_edge_skipped [flow13 (Qc_of_Z 91)] (Qc_of_Z 90) matrix12
              None (flow13 (Qc_of_Z 91)) (2, 3)%Z Hcap Hpath Hedge Hrow)
    as (s & log & Hinit & Hnone & Hlog & Hother & Hreq & _).
  exists s, log. split; [done|]. split; [done|]. split; [done|]. split.
  - destruct (Hother (1, 2)%Z row12) as (leg & -> & _); [left|by vm_compute|done].
  - etrans; [exact Hreq|]. f_equal. qc_eq.
Defined.

Lemma validate_coverage_findings_witness :
  ∃ s log,
    Solution_init [flow13 (dec 499 1)] (Qc_of_Z 90) matrix12 None = Ok (s, log)
    ∧ Qcsum (request_volumes (1, 3)%Z (paths s)) = dec 499 1
    ∧ validate_coverage s [((1, 3)%Z, Qc_of_Z 50)]
      = [{| ce_key := (1, 3)%Z; ce_expected := Qc_of_Z 50; ce_actual := dec 499 1 |}].
Proof.
  eexists _, _. split; [vm_compute; reflexivity|].
  assert (∀ s : Solution Z,
            Qcsum (request_volumes (1, 3)%Z (paths s)) = dec 499 1 →
            Qcsum (request_volumes (1, 3)%Z (paths s)) = dec 499 1
            ∧ validate_coverage s [((1, 3)%Z, Qc_of_Z 50)]
              = [{| ce_key := (1, 3)%Z; ce_expected := Qc_of_Z 50;
                    ce_actual := dec 499 1 |}]) as Hcase.
  { intros s Hact. split; [done|].
    by apply (proj2 (proj2 (proj2 (validate_coverage_findings (Node:=Z))))). }
  apply Hcase. qc_eq.
Defined.

Lemma node_capacity_findings_witness :
  ∃ s log,
    Solution_init [flow13 (Qc_of_Z 15)] (Qc_of_Z 90) matrix12 (Some offices2)
      = Ok (s, log)
    ∧ transfer_violations s
      = offices2 ≫= node_findings [flow13 (Qc_of_Z 15)]
    ∧ length (transfer_violations s) = 2%nat.
Proof.
  eexists _, _. split; [vm_compute; reflexivity|].
  split; [|vm_compute; reflexivity].
  eapply (proj1 (node_capacity_findings (Node:=Z))
            [flow13 (Qc_of_Z 15)] (Qc_of_Z 90) matrix12 (Some offices2)).
  vm_compute; reflexivity.
Defined.

Lemma vehicle_utilization_clamped_witness :
  Forall (λ path : Path Z, 0 ≤ volume path) [flow13 (Qc_of_Z 91)]
  ∧ ∃ s log,
      Solution_init [flow13 (Qc_of_Z 91)] (Qc_of_Z 90) matrix12 None = Ok (s, log)
      ∧ total_vehicles s = 2%Z
      ∧ vehicle_utilization s ≤ Qc_of_Z 100.
Proof.
  assert (Forall (λ path : Path Z, 0 ≤ volume path) [flow13 (Qc_of_Z 91)]) as Hvol.
  { repeat constructor. qc_le. }
  split; [done|].
  destruct (vehicle_utilization_clamped [flow13 (Qc_of_Z 91)] (Qc_of_Z 90)
              matrix12 None Hvol) as [Hok Hutil].
  destruct Hok as (s & log & Hinit); [qc_neq|].
  exists s, log. split; [done|]. split.
  - assert (Solution_init [flow13 (Qc_of_Z 91)] (Qc_of_Z 90) matrix12 None
            = Ok (s, log)) as Hinit' by done.
    vm_compute in Hinit'. injection Hinit' as <- _. reflexivity.
  - by destruct (Hutil s log Hinit).
Defined.



(** C8, as the specification words it, does not hold: the document that
    [save_to_json] writes
    has no ['flows'] entry, so loading it as the structured form constructs
    the analyzer of the empty flow set. *)
Lemma json_round_trip_loses_flows :
  ∃ s log s' log',
    Solution_init [flow13 (Qc_of_Z 91)] (Qc_of_Z 90) matrix12 None = Ok (s, log)
    ∧ main_solution literal_eval (JsonFile (save_to_json s))
        matrix12 None (Qc_of_Z 90) = Ok (s', log')
    ∧ total_volume s = Qc_of_Z 91
    ∧ total_volume s' = 0
    ∧ total_vehicles s = 2%Z
    ∧ total_vehicles s' = 0%Z.
Proof.
  eexists _, _, _, _. split; [vm_compute; reflexivity|].
  split; [vm_compute; reflexivity|].
  split; [qc_eq|]. split; [qc_eq|]. split; reflexivity.
Qed.

Lemma flat_path_round_trip_witness :
  ((∀ nodes, literal_eval (literal_str nodes) = Ok nodes)
   ∧ [flow13 (Qc_of_Z 91)] ≠ []
   ∧ Forall (λ path : Path Z,
               (2 ≤ length (path_nodes path))%nat
               ∧ head (path_nodes path) = Some (src path)
               ∧ last (path_nodes path) = Some (dst path))
            [flow13 (Qc_of_Z 91)])
  ∧ ∃ s log rows,
      Solution_init [flow13 (Qc_of_Z 91)] (Qc_of_Z 90) matrix12 None = Ok (s, log)
      ∧ paths_csv (save_to_csv literal_str s) = Some rows
      ∧ main_solution literal_eval (CsvFile rows) matrix12 None (Qc_of_Z 90)
        = Ok (s, log).
Proof.
  assert (∀ nodes, literal_eval (literal_str nodes) = Ok nodes) as Heval by done.
  assert ([flow13 (Qc_of_Z 91)] ≠ []) as Hne by discriminate.
  assert (Forall (λ path : Path Z,
               (2 ≤ length (path_nodes path))%nat
               ∧ head (path_nodes path) = Some (src path)
               ∧ last (path_nodes path) = Some (dst path))
            [flow13 (Qc_of_Z 91)]) as Hwf.
  { repeat constructor. }
  split; [done|].
  destruct (Solution_init [flow13 (Qc_of_Z 91)] (Qc_of_Z 90) matrix12 None)
    as [[s log]|e] eqn:Hinit; [|by vm_compute in Hinit].
  exists s, log.
  destruct (flat_path_round_trip literal_str literal_eval
              [flow13 (Qc_of_Z 91)] (Qc_of_Z 90) matrix12 None s log
              Heval Hinit Hne Hwf) as (rows & Hrows & Hload).
  exists rows. done.
Defined.

Lemma load_rejects_mismatched_endpoints_witness :
  Forall (λ flow : Flow Z, legs flow ≠ []) [ext13 (Qc_of_Z 91)]
  ∧ ∃ s log,
      load_from_external_format (Some [ext13 (Qc_of_Z 91)]) matrix12 None
        (Qc_of_Z 90) = Ok (s, log)
      ∧ path_nodes <$> paths s = [[1; 2; 3]%Z]
      ∧ Forall (λ path, head (path_nodes path) = Some (src path)
                        ∧ last (path_nodes path) = Some (dst path)) (paths s).
Proof.
  assert (Forall (λ flow : Flow Z, legs flow ≠ []) [ext13 (Qc_of_Z 91)]) as Hlegs.
  { repeat constructor. discriminate. }
  split; [done|].
  destruct (load_rejects_mismatched_endpoints [ext13 (Qc_of_Z 91)] matrix12 None
              (Qc_of_Z 90) Hlegs) as (Hiff & Hok & Hex).
  destruct Hex as (s & log & Hload); [qc_neq| |].
  { intros Hbad. apply Hiff in Hbad. by vm_compute in Hbad. }
  exists s, log. split; [done|].
  by destruct (Hok s log Hload).
Defined.

(** C10, as the specification words it, does not hold on floats: for the
    volumes 0.3, 0.1 and 0.2, the first and the last of one request, the
    request aggregates are 0.5 and 0.1 and sum to 0.6, while [total_volume]
    is (0.3 + 0.1) + 0.2 = 0.6000000000000001; for a total time of 60 the
    average that the code computes is 100.0 and
    [total_time / total_volume] is 99.99999999999999. *)
#[warnings="-inexact-float"]
Lemma float_request_sum_differs :
  let reqs :=
    AsComputed._reconstruct_reqs_from_paths 0%float PrimFloat.add float_flows in
  let total_volume := AsComputed.total_volume 0%float PrimFloat.add float_flows in
  let avg :=
    AsComputed.avg_delivery_time_per_volume 0%float PrimFloat.add PrimFloat.div
      (PrimFloat.ltb 0%float) 60%float reqs in
  PrimFloat.eqb (AsComputed.py_sum 0%float PrimFloat.add reqs.*2) total_volume
  = false
  ∧ PrimFloat.eqb (AsComputed.py_sum 0%float PrimFloat.add reqs.*2) 0.6%float
    = true
  ∧ PrimFloat.eqb total_volume 0.6000000000000001%float = true
  ∧ PrimFloat.eqb avg (PrimFloat.div 60%float total_volume) = false
  ∧ PrimFloat.eqb avg 100%float = true
  ∧ PrimFloat.eqb (PrimFloat.div 60%float total_volume) 99.99999999999999%float
    = true.
Proof. vm_compute. repeat split. Qed.

Lemma request_aggregation_preserves_volume_witness :
  ((∀ x : Qc, 0 + x = x) ∧ (∀ x y : Qc, x + y = y + x)
   ∧ (∀ x y z : Qc, x + (y + z) = x + y + z))
  ∧ AsComputed.py_sum 0 Qcplus
      (AsComputed._reconstruct_reqs_from_paths 0 Qcplus int_flows).*2
    = AsComputed.total_volume 0 Qcplus int_flows
  ∧ AsComputed.avg_delivery_time_per_volume 0 Qcplus Qcdiv
      (λ q, bool_decide (0 < q)) (Qc_of_Z 60)
      (AsComputed._reconstruct_reqs_from_paths 0 Qcplus int_flows)
    = if bool_decide (0 < AsComputed.total_volume 0 Qcplus int_flows)
      then Qc_of_Z 60 / AsComputed.total_volume 0 Qcplus int_flows
      else 0.
Proof.
  split; [repeat split; intros; ring|].
  apply (request_aggregation_preserves_volume 0 Qcplus Qcdiv
           (λ q, bool_decide (0 < q)) int_flows (Qc_of_Z 60)); intros; ring.
Defined.

(** * Further properties *)

Lemma Zsum_perm (l1 l2 : list Z) : l1 ≡ₚ l2 → Zsum l1 = Zsum l2.
Proof. induction 1; simpl; lia. Qed.

Lemma values_insert_perm {K V} `{Countable K} (m : gmap K V) (k : K) (v : V) :
  values (<[k := v]> m) ≡ₚ v :: values (delete k m).
Proof.
  unfold values. rewrite <-insert_delete_eq.
  rewrite map_to_list_insert by apply lookup_delete_eq. done.
Qed.

Lemma values_delete_perm {K V} `{Countable K} (m : gmap K V) (k : K) (v : V) :
  m !! k = Some v → values m ≡ₚ v :: values (delete k m).
Proof.
  intros Hk. unfold values. by rewrite <-(map_to_list_delete m k v Hk).
Qed.

Lemma values_delete_none {K V} `{Countable K} (m : gmap K V) (k : K) :
  m !! k = None → delete k m = m.
Proof. apply delete_id. Qed.

Lemma values_fmap_perm {K V W} `{Countable K} (f : V → W) (m : gmap K V) :
  values (f <$> m) ≡ₚ f <$> values m.
Proof.
  unfold values. rewrite map_to_list_fmap, <-!list_fmap_compose. done.
Qed.

Lemma sum_values_insert {K V} `{Countable K} (f : V → nat) (m : gmap K V)
    (k : K) (v : V) :
  (sum_list_with f (values (<[k := v]> m)) + from_option f 0 (m !! k)
   = sum_list_with f (values m) + f v)%nat.
Proof.
  rewrite values_insert_perm. simpl.
  destruct (m !! k) as [old|] eqn:Hk; simpl.
  - rewrite (values_delete_perm m k old Hk). simpl. lia.
  - rewrite (delete_id m k Hk). lia.
Qed.

Lemma edges_length {Node} (nodes : list Node) :
  length (edges nodes) = (length nodes - 1)%nat.
Proof.
  induction nodes as [|a [|b rest] IH]; [done..|].
  change (edges (a :: b :: rest)) with ((a, b) :: edges (b :: rest)).
  simpl in *. lia.
Qed.

Section Extras.
Context {Node : Type} `{Countable Node}.
Implicit Types (path : Path Node) (paths : list (Path Node)).
Implicit Types (key : Node * Node) (matrix_df : gmap (Node * Node) MatrixRow).
Implicit Types (offices_df : option (list (Node * OfficeRow))).
Implicit Types (s : Solution Node) (log : Log Node).

Lemma contributions_nonempty paths key :
  contributions key paths ≠ []
  ↔ ∃ path, path ∈ paths ∧ key ∈ edges (path_nodes path).
Proof.
  split.
  - intros Hne. destruct (contributions key paths) as [|req l] eqn:Hc; [done|].
    assert (req ∈ contributions key paths) as Hin by (rewrite Hc; left).
    unfold contributions in Hin.
    apply list_elem_of_bind in Hin as (path & Hreq & Hpath).
    unfold path_contributions in Hreq.
    apply list_elem_of_fmap in Hreq as (e & _ & He).
    apply list_elem_of_filter in He as [-> He]. eauto.
  - intros (path & Hpath & He) Hnil.
    assert (((src path, dst path), volume path) ∈ contributions key paths) as Hin.
    { unfold contributions. apply list_elem_of_bind. exists path. split; [|done].
      unfold path_contributions. apply list_elem_of_fmap.
      exists key. split; [done|]. by apply list_elem_of_filter. }
    rewrite Hnil in Hin. by apply not_elem_of_nil in Hin.
Qed.

(** X1. The leg map has a leg for exactly the edges that some flow uses and
    that the edge reference knows; the leg carries the reference's distance,
    time and tariff, and one request per use of the edge, in flow order. *)
Theorem leg_map_entries paths (vehicle_capacity : Qc) matrix_df offices_df
    s log key :
  Solution_init paths vehicle_capacity matrix_df offices_df = Ok (s, log) →
  (is_Some (transport_legs s !! key)
   ↔ is_Some (matrix_df !! key)
     ∧ ∃ path, path ∈ paths ∧ key ∈ edges (path_nodes path))
  ∧ (∀ leg, transport_legs s !! key = Some leg →
       ∃ row, matrix_df !! key = Some row
         ∧ distance leg = m_distance row
         ∧ time leg = m_time row
         ∧ cost_per_km leg = m_price_per_km row
         ∧ leg_reqs leg
           = paths ≫= λ path,
               (λ _, ((src path, dst path), volume path))
                 <$> filter (λ e, e = key) (edges (path_nodes path))).
Proof.
  intros Hinit. apply Solution_init_inv in Hinit as [-> _]. simpl.
  rewrite lookup_fmap, accumulate_legs_lookup.
  rewrite <-contributions_nonempty.
  fold (path_contributions key). fold (contributions key paths).
  destruct (contributions key paths) as [|req l] eqn:Hc.
  - split.
    + split; [by intros [? ?]|]. by intros [_ ?].
    + done.
  - destruct (matrix_df !! key) as [row|]; simpl.
    + split.
      * split; [|by eauto]. intros _. split; [by eauto|done].
      * intros leg [= <-]. exists row. done.
    + split; [|done]. split; [by intros [? ?]|]. by intros [[? ?] _].
Qed.

(** X2. Every use of an edge by a flow is accounted for exactly once: the
    requests held by the legs and the logged omissions together number the
    consecutive node pairs of all paths. *)
Theorem edge_uses_accounted paths (vehicle_capacity : Qc) matrix_df offices_df
    s log :
  Solution_init paths vehicle_capacity matrix_df offices_df = Ok (s, log) →
  (sum_list_with (λ leg, length (leg_reqs leg)) (values (transport_legs s))
   + length log
   = sum_list_with (λ path, length (path_nodes path) - 1) paths)%nat.
Proof.
  intros Hinit. apply Solution_init_inv in Hinit as [-> ->]. simpl.
  rewrite values_fmap_perm.
  rewrite <-accumulate_legs_log.
  assert (∀ (l : list (LegAcc Node)),
            sum_list_with (λ leg, length (leg_reqs leg))
              (with_vehicles vehicle_capacity <$> l)
            = sum_list_with (λ leg, length (acc_reqs leg)) l) as ->.
  { induction l as [|leg l IH]; simpl; [done|]. by f_equal. }
  set (count (st : gmap (Node * Node) (LegAcc Node) * Log Node) :=
         (sum_list_with (λ leg, length (acc_reqs leg)) (values st.1)
          + length st.2)%nat).
  assert (∀ req st k,
            count (add_edge matrix_df req st k) = S (count st)) as Hedge.
  { intros req st k. unfold count, add_edge.
    destruct (st.1 !! k) as [leg|] eqn:Hk; simpl.
    - pose proof (sum_values_insert (λ leg, length (acc_reqs leg)) st.1 k
                    (leg_add leg req)) as Hsum.
      rewrite Hk in Hsum. simpl in Hsum. rewrite length_app in Hsum.
      simpl in Hsum. lia.
    - destruct (matrix_df !! k) as [row|]; simpl.
      + pose proof (sum_values_insert (λ leg, length (acc_reqs leg)) st.1 k
                      (leg_add (new_leg row) req)) as Hsum.
        rewrite Hk in Hsum. simpl in Hsum. lia.
      + rewrite length_app. simpl. lia. }
  assert (∀ req es st,
            count (foldl (add_edge matrix_df req) st es)
            = (count st + length es)%nat) as Hedges.
  { intros req es. induction es as [|k es IH]; intros st; simpl; [lia|].
    rewrite IH, Hedge. lia. }
  assert (∀ ps st,
            count (foldl (add_path matrix_df) st ps)
            = (count st
               + sum_list_with (λ path, length (path_nodes path) - 1) ps)%nat)
    as Hpaths.
  { induction ps as [|path ps IH]; intros st; simpl; [lia|].
    rewrite IH. unfold add_path. rewrite Hedges, edges_length. lia. }
  specialize (Hpaths paths (∅, [])). unfold count in Hpaths at 2.
  simpl in Hpaths. rewrite values_empty in Hpaths. simpl in Hpaths.
  exact Hpaths.
Qed.

(** ** Transfer cost and capacity findings *)

Lemma visit_transits_cost (offices : list (Node * OfficeRow)) (v : Qc)
    (st : TransferAcc Node) (nodes : list Node) :
  total_transfer_cost (foldl (visit_transit (Some offices) v) st nodes)
  = total_transfer_cost st
    + Qcsum (transfer_charge offices <$> ((λ node, (node, v)) <$> nodes)).
Proof.
  revert st. induction nodes as [|node nodes IH]; intros st.
  - simpl. ring.
  - rewrite !fmap_cons. cbn [foldl Qcsum foldr]. rewrite IH.
    fold (Qcsum (transfer_charge offices <$> ((λ node0, (node0, v)) <$> nodes))).
    generalize (Qcsum (transfer_charge offices <$> ((λ node0, (node0, v)) <$> nodes))).
    intros rest. unfold visit_transit, transfer_charge. simpl.
    destruct (office_row offices node); simpl; ring.
Qed.

Lemma visit_paths_cost (offices : list (Node * OfficeRow))
    (st : TransferAcc Node) paths :
  total_transfer_cost (foldl (visit_path (Some offices)) st paths)
  = total_transfer_cost st
    + Qcsum (transfer_charge offices <$> transit_visits paths).
Proof.
  revert st. induction paths as [|path paths IH]; intros st.
  - simpl. ring.
  - unfold transit_visits. rewrite bind_cons, fmap_app, Qcsum_app.
    fold (transit_visits paths). cbn [foldl]. rewrite IH.
    unfold visit_path. rewrite visit_transits_cost. ring.
Qed.

Lemma visit_paths_free (st : TransferAcc Node) paths :
  total_transfer_cost (foldl (visit_path None) st paths)
  = total_transfer_cost st.
Proof.
  revert st. induction paths as [|path paths IH]; intros st; [done|].
  cbn [foldl]. rewrite IH. unfold visit_path.
  generalize (transit_nodes (path_nodes path)). intros nodes. revert st.
  induction nodes as [|node nodes IHn]; intros st; [done|].
  cbn [foldl]. by rewrite IHn.
Qed.

(** X3. The transfer cost is the sum, over every pass of a flow through a
    transit node of its path (the nodes strictly between the first and the
    last), of the flow's volume times the node's transfer price; nodes that
    the node table lacks cost nothing, and without a node table the cost
    is 0. *)
Theorem transfer_cost_sum paths (vehicle_capacity : Qc) matrix_df offices_df
    s log :
  Solution_init paths vehicle_capacity matrix_df offices_df = Ok (s, log) →
  transfer_cost s
  = match offices_df with
    | Some offices =>
        Qcsum (paths ≫= λ path,
                 (λ node, match office_row offices node with
                          | Some row => volume path * transfer_price row
                          | None => 0
                          end)
                   <$> transit_nodes (path_nodes path))
    | None => 0
    end.
Proof.
  intros Hinit. apply Solution_init_inv in Hinit as [-> _]. simpl.
  destruct offices_df as [offices|].
  - rewrite visit_paths_cost. simpl. rewrite Qcplus_0_l. f_equal.
    unfold transit_visits. clear. induction paths as [|path paths IH]; [done|].
    rewrite !bind_cons, fmap_app, IH, <-list_fmap_compose. done.
  - by rewrite visit_paths_free.
Qed.

Lemma node_findings_direction paths (node : Node) (row : OfficeRow)
    (dir : Direction) :
  filter (λ v, v_direction v = dir) (node_findings paths (node, row))
  = direction_finding node dir (transit_volume node paths) (transfer_max row).
Proof.
  unfold node_findings, direction_finding. simpl.
  destruct (transit_volume node paths) as [flow|]; [|done].
  case_decide; [|done].
  rewrite filter_app, !filter_cons, !filter_nil. simpl.
  destruct dir; by repeat case_decide.
Qed.

(** X4. Capacity findings come in pairs: a node is reported inbound exactly
    when it is reported outbound, with the same volume and capacity, because
    every pass through a transit node adds the volume to both directions. *)
Theorem capacity_findings_paired paths (vehicle_capacity : Qc) matrix_df
    offices_df s log :
  Solution_init paths vehicle_capacity matrix_df offices_df = Ok (s, log) →
  finding_data <$> filter (λ v, v_direction v = Inbound) (transfer_violations s)
  = finding_data <$> filter (λ v, v_direction v = Outbound) (transfer_violations s)
  ∧ length (transfer_violations s)
    = (2 * length (filter (λ v, v_direction v = Inbound) (transfer_violations s)))%nat.
Proof.
  intros Hinit. apply Solution_init_inv in Hinit as [-> _].
  unfold metrics. cbn [transfer_violations].
  rewrite transfer_violations_bind.
  destruct offices_df as [offices|]; [|done].
  induction offices as [|[node row] offices [IHdata IHlen]]; [done|].
  rewrite bind_cons, !filter_app, !fmap_app, !length_app.
  rewrite IHdata, IHlen, !node_findings_direction.
  unfold node_findings, direction_finding. simpl.
  destruct (transit_volume node paths) as [flow|]; [|done].
  case_decide; simpl; [|done]. split; [done|lia].
Qed.

Lemma transit_visits_direct paths :
  Forall (λ path, (length (path_nodes path) ≤ 2)%nat) paths →
  transit_visits paths = [].
Proof.
  induction 1 as [|path paths Hlen _ IH]; [done|].
  unfold transit_visits. rewrite bind_cons. fold (transit_visits paths).
  rewrite IH. unfold transit_nodes. rewrite decide_False by lia. done.
Qed.

(** X5. Flows that go straight from source to destination (paths of at most
    two nodes) pass through no transit node: they incur no transfer cost and
    cause no capacity finding, whatever the node table. *)
Theorem direct_flows_no_transfer paths (vehicle_capacity : Qc) matrix_df
    offices_df s log :
  Forall (λ path, (length (path_nodes path) ≤ 2)%nat) paths →
  Solution_init paths vehicle_capacity matrix_df offices_df = Ok (s, log) →
  transfer_cost s = 0 ∧ transfer_violations s = [] ∧ total_cost s = transport_cost s.
Proof.
  intros Hdirect Hinit. apply Solution_init_inv in Hinit as [-> _].
  unfold metrics. cbn [transfer_violations transfer_cost total_cost transport_cost].
  pose proof (transit_visits_direct paths Hdirect) as Hvisits.
  assert ((_calculate_transfer_costs paths offices_df).1 = 0) as Hcost.
  { unfold _calculate_transfer_costs. simpl. destruct offices_df as [offices|].
    - rewrite visit_paths_cost, Hvisits. simpl. ring.
    - by rewrite visit_paths_free. }
  rewrite Hcost. split; [done|]. split; [|ring].
  rewrite transfer_violations_bind. destruct offices_df as [offices|]; [|done].
  clear Hcost. induction offices as [|[node row] offices IH]; [done|].
  rewrite bind_cons, IH. unfold node_findings, transit_volume, transit_volumes.
  by rewrite Hvisits.
Qed.

(** ** Request aggregates *)

(** X6. The request aggregate map has exactly the (source, destination)
    keys of the flows, each with the sum of the volumes of its flows. *)
Theorem request_aggregates paths key :
  (_reconstruct_reqs_from_paths paths !! key = None
   ↔ ∀ path, path ∈ paths → (src path, dst path) ≠ key)
  ∧ (∀ v, _reconstruct_reqs_from_paths paths !! key = Some v →
       v = Qcsum (volume <$> filter (λ path, (src path, dst path) = key) paths)).
Proof.
  rewrite reqs_lookup. unfold request_volumes.
  destruct (filter (λ path, (src path, dst path) = key) paths) as [|path l]
    eqn:Hfilter.
  - split; [|done]. split; [|done]. intros _ path Hpath Hkey.
    assert (path ∈ filter (λ path, (src path, dst path) = key) paths) as Hin
      by (by apply list_elem_of_filter).
    rewrite Hfilter in Hin. by apply not_elem_of_nil in Hin.
  - assert (path ∈ filter (λ path, (src path, dst path) = key) paths) as Hin
      by (rewrite Hfilter; left).
    apply list_elem_of_filter in Hin as [Hkey Hin].
    split.
    + split; [done|]. intros Hnone. by destruct (Hnone path Hin).
    + intros v [= <-]. simpl. ring.
Qed.

Lemma size_list_to_set_le (l : list (Node * Node)) :
  (size (list_to_set l : gset (Node * Node)) ≤ length l)%nat.
Proof.
  induction l as [|x l IH]; [done|].
  rewrite list_to_set_cons, size_union_alt, size_singleton. simpl.
  assert (size (list_to_set l ∖ {[x]} : gset (Node * Node))
          ≤ size (list_to_set l : gset (Node * Node)))%nat as Hdiff.
  { apply subseteq_size. intros y Hy. by apply elem_of_difference in Hy as [? _]. }
  lia.
Qed.

Lemma Qcdiv_ge_1 (n k : Z) : (0 < k ≤ n)%Z → 1 ≤ Qc_of_Z n / Qc_of_Z k.
Proof.
  intros [Hk Hn].
  assert (0 < Qc_of_Z k) as Hpos by (by apply Qc_of_Z_pos).
  assert (1 = Qc_of_Z k / Qc_of_Z k) as ->.
  { field. intros Hzero. rewrite Hzero in Hpos. by apply Qclt_not_eq in Hpos. }
  apply Qcmult_le_mono_nonneg_r; [by apply Qclt_le_weak, Qcinv_pos|].
  by apply (proj1 (Z2Qc_inj_le k n)).
Qed.

(** X7. There are never more requests than flows: [paths_per_req] is at
    least 1 for a non-empty flow set, and 0 for the empty one. *)
Theorem paths_per_req_at_least_one paths (vehicle_capacity : Qc) matrix_df
    offices_df s log :
  Solution_init paths vehicle_capacity matrix_df offices_df = Ok (s, log) →
  (size (reqs s) ≤ length paths)%nat
  ∧ (paths ≠ [] → 1 ≤ paths_per_req s)
  ∧ (paths = [] → paths_per_req s = 0).
Proof.
  intros Hinit. apply Solution_init_inv in Hinit as [-> _]. simpl.
  assert (size (_reconstruct_reqs_from_paths paths) ≤ length paths)%nat as Hle.
  { rewrite reqs_size. etrans; [apply size_list_to_set_le|].
    unfold request_keys. by rewrite length_fmap. }
  split; [done|]. split.
  - intros Hne. rewrite decide_True by (by rewrite reqs_empty).
    apply Qcdiv_ge_1.
    assert (size (_reconstruct_reqs_from_paths paths) ≠ 0%nat)
      by (apply map_size_non_empty_iff; by rewrite reqs_empty).
    lia.
  - intros ->. done.
Qed.

(** ** Coverage *)

Lemma bind_nil_all {A B} (f : A → list B) (l : list A) :
  (∀ x, x ∈ l → f x = []) → l ≫= f = [].
Proof.
  induction l as [|x l IH]; intros Hf; [done|].
  rewrite bind_cons, Hf by left. apply IH. intros y Hy. apply Hf. by right.
Qed.

(** X8. An analyzer passes the coverage check against its own request
    aggregates: validating against the table of [reqs] gives no finding. *)
Theorem coverage_of_own_requests paths (vehicle_capacity : Qc) matrix_df
    offices_df s log :
  Solution_init paths vehicle_capacity matrix_df offices_df = Ok (s, log) →
  validate_coverage s (map_to_list (reqs s)) = [].
Proof.
  intros Hinit. apply Solution_init_inv in Hinit as [-> _].
  rewrite validate_coverage_bind. simpl.
  apply bind_nil_all. intros [key v] Hin.
  apply elem_of_map_to_list in Hin.
  rewrite reqs_lookup in Hin.
  unfold coverage_finding. simpl.
  assert (Qcsum (request_volumes key paths) = v) as ->.
  { destruct (request_volumes key paths) as [|x l]; [done|].
    injection Hin as <-. simpl. ring. }
  assert (v - v = 0) as -> by ring.
  by vm_compute.
Qed.

(** X9. The coverage check looks only at the rows of the reference table:
    every finding is for a listed request with its listed expected volume,
    so flows of a request that the table does not list are never reported,
    and there are at most as many findings as rows. *)
Theorem coverage_only_listed_requests s (df_tare : list ((Node * Node) * Qc)) :
  (∀ finding, finding ∈ validate_coverage s df_tare →
     (ce_key finding, ce_expected finding) ∈ df_tare)
  ∧ (length (validate_coverage s df_tare) ≤ length df_tare)%nat.
Proof.
  rewrite validate_coverage_bind. split.
  - intros finding Hin. apply list_elem_of_bind in Hin as ([key v] & Hin & Hrow).
    unfold coverage_finding in Hin. simpl in Hin.
    case_decide; [|by apply not_elem_of_nil in Hin].
    apply list_elem_of_singleton in Hin as ->. done.
  - induction df_tare as [|entry rows IH]; [done|].
    rewrite bind_cons, length_app. unfold coverage_finding at 1.
    case_decide; simpl; lia.
Qed.

(** ** The empty flow set *)

(** X10. The empty flow set is analyzed for every vehicle capacity, zero
    included: no leg, no request, all totals 0, utilization 0, no capacity
    finding, and [cost_per_cubic_meter] is +infinity. *)
Theorem empty_flow_set (vehicle_capacity : Qc) matrix_df offices_df :
  ∃ s,
    Solution_init [] vehicle_capacity matrix_df offices_df = Ok (s, [])
    ∧ transport_legs s = ∅ ∧ reqs s = ∅
    ∧ total_volume s = 0 ∧ total_vehicles s = 0%Z
    ∧ total_distance s = 0 ∧ total_time s = 0
    ∧ total_cost s = 0
    ∧ avg_delivery_time_per_req s = 0 ∧ avg_delivery_time_per_volume s = 0
    ∧ paths_per_req s = 0 ∧ vehicle_utilization s = 0
    ∧ underloaded_legs s = 0%nat
    ∧ cost_per_cubic_meter s = Infinity
    ∧ transfer_violations s = [].
Proof.
  exists (metrics [] vehicle_capacity matrix_df offices_df ∅ ∅).
  split.
  - destruct (decide (vehicle_capacity = 0)) as [->|Hcap].
    + by rewrite Solution_init_zero.
    + rewrite Solution_init_ok by done. simpl. by rewrite fmap_empty.
  - pose proof (transfer_violations_bind [] offices_df) as Hfindings.
    assert (offices_df ≫= (λ offices, Some (offices ≫= node_findings []))
            = (λ _, []) <$> offices_df) as Hnone.
    { destruct offices_df as [offices|]; [|done]. simpl. f_equal.
      induction offices as [|[node row] offices IH]; [done|].
      by rewrite bind_cons, IH. }
    assert ((_calculate_transfer_costs [] offices_df).2 = []) as Hv.
    { rewrite Hfindings. destruct offices_df as [offices|]; [|done].
      by injection Hnone. }
    assert ((_calculate_transfer_costs [] offices_df).1 = 0) as Hc
      by (by destruct offices_df).
    unfold metrics, count_underloaded_legs.
    cbn [transport_legs reqs total_volume total_vehicles total_distance
         total_time total_cost avg_delivery_time_per_req
         avg_delivery_time_per_volume paths_per_req vehicle_utilization
         underloaded_legs cost_per_cubic_meter transfer_violations].
    rewrite Hc, Hv, !values_empty.
    repeat split; try done; by vm_compute.
Qed.

(** ** The loaders *)

Lemma edges_zip (node : Node) (rest : list Node) :
  edges (node :: rest) = zip (node :: rest) rest.
Proof.
  revert node. induction rest as [|next rest IH]; intros node; [done|].
  change (edges (node :: next :: rest)) with ((node, next) :: edges (next :: rest)).
  by rewrite IH.
Qed.

(** X11. The loader of the structured form does not check that the legs of
    a flow are consecutive: the [from_office_id] of every leg but the first
    is ignored.  An accepted flow of n legs gets a path of n + 1 nodes whose
    edges are the first leg, then from each leg's [to_office_id] to the
    next's; and two flows that differ only in the [from_office_id] of later
    legs load alike. *)
Theorem loader_rechains_legs (flow : Flow Node) :
  (∀ path, flow_path flow = Ok path →
     length (path_nodes path) = S (length (legs flow))
     ∧ ∃ first rest,
         legs flow = first :: rest
         ∧ edges (path_nodes path)
           = (from_office_id first, to_office_id first)
             :: zip (to_office_id <$> legs flow) (to_office_id <$> rest))
  ∧ (∀ flow' : Flow Node,
       src_office_id flow' = src_office_id flow →
       dst_office_id flow' = dst_office_id flow →
       avg_day_polybox_qty flow' = avg_day_polybox_qty flow →
       from_office_id <$> head (legs flow') = from_office_id <$> head (legs flow) →
       to_office_id <$> legs flow' = to_office_id <$> legs flow →
       flow_path flow' = flow_path flow).
Proof.
  split.
  - intros path. unfold flow_path.
    destruct (legs flow) as [|first rest] eqn:Hlegs; [done|].
    case_decide; [done|]. intros [= <-]. simpl. split.
    + by rewrite length_fmap.
    + exists first, rest. split; [done|]. f_equal.
      apply (edges_zip (to_office_id first)).
  - intros flow' Hsrc Hdst Hqty Hfrom Hto. unfold flow_path.
    destruct (legs flow) as [|first rest], (legs flow') as [|first' rest'];
      try done.
    simpl in Hfrom. injection Hfrom as Hfrom.
    rewrite Hsrc, Hdst, Hqty, Hfrom, Hto. done.
Qed.

End Extras.

Section FilesExtras.
Context {Node : Type} `{Countable Node} {Text : Type}.
Context (py_str : list Node → Text) (py_eval : Text → result (list Node)).

(** X12. What becomes of a row of the flat-path form whose [path_nodes] cell
    evaluates to a node list, once the adapter has converted it and the
    loader reads it: a path of fewer than two nodes raises [IndexError] (it
    has no leg), a path whose ends are not the row's [src] and [dst] raises
    [ValueError], and any other row gives the flow of the row with the
    evaluated path. *)
Theorem flat_row_outcome (row : PathRow Node Text) (nodes : list Node) :
  py_eval (row_path_nodes row) = Ok nodes →
  row_flow py_eval row ≫= flow_path
  = if decide (length nodes < 2)%nat then Raise IndexError
    else if decide (head nodes ≠ Some (row_src row)
                    ∨ last nodes ≠ Some (row_dst row))
    then Raise ValueError
    else Ok {| src := row_src row; dst := row_dst row;
               volume := row_volume row; path_nodes := nodes |}.
Proof.
  intros Heval. unfold row_flow. rewrite Heval. simpl.
  unfold flow_path.
  cbn [legs src_office_id dst_office_id avg_day_polybox_qty].
  destruct nodes as [|first [|second rest]].
  - by rewrite decide_True by (simpl; lia).
  - by rewrite decide_True by (simpl; lia).
  - rewrite (decide_False (P:=(length (first :: second :: rest) < 2)%nat))
      by (simpl; lia).
    change (edges (first :: second :: rest))
      with ((first, second) :: edges (second :: rest)).
    rewrite !fmap_cons. cbn [from_office_id to_office_id fst snd].
    rewrite <-list_fmap_compose.
    change (to_office_id ∘ _) with (snd : Node * Node → Node).
    rewrite edges_targets. done.
Qed.

(** X13. Reading a flat-path file never fails on a row: the rows whose
    [path_nodes] cell raises are dropped and logged, the others are
    converted, in file order, so converted and logged rows add up to the
    rows of the file. *)
Theorem csv_rows_converted_or_logged (rows : list (PathRow Node Text)) :
  ∃ flows,
    (load_solution py_eval (CsvFile rows)).1 = Some flows
    ∧ flows = omap (λ row, match row_flow py_eval row with
                           | Ok flow => Some flow
                           | Raise _ => None
                           end) rows
    ∧ (load_solution py_eval (CsvFile rows)).2
      = omap (λ row, match row_flow py_eval row with
                     | Ok _ => None
                     | Raise e => Some e
                     end) rows
    ∧ (length flows + length (load_solution py_eval (CsvFile rows)).2
       = length rows)%nat.
Proof.
  eexists. split; [done|]. simpl.
  assert (∀ st,
            foldl (add_row py_eval) st rows
            = (st.1 ++ omap (λ row, match row_flow py_eval row with
                                    | Ok flow => Some flow
                                    | Raise _ => None
                                    end) rows,
               st.2 ++ omap (λ row, match row_flow py_eval row with
                                    | Ok _ => None
                                    | Raise e => Some e
                                    end) rows)) as Hfold.
  { induction rows as [|row rows IH]; intros st.
    - simpl. rewrite !app_nil_r. by destruct st.
    - cbn [foldl omap list_omap]. rewrite IH. unfold add_row.
      destruct (row_flow py_eval row); simpl; by rewrite <-?app_assoc. }
  rewrite Hfold. simpl. split; [done|]. split; [done|].
  clear Hfold. induction rows as [|row rows IH]; [done|].
  cbn [omap list_omap]. destruct (row_flow py_eval row); simpl in *; lia.
Qed.

End FilesExtras.

Section JsonExtras.
Context {Node : Type} `{Countable Node}.

(** X14. Saving an analyzer of a non-empty flow set to JSON and loading it
    with [load_from_json] constructs the analyzer of the saved flows for the
    vehicle capacity and the references that are passed to the loader; the
    saved metadata, capacity included, and the saved legs are not used.
    With the original capacity and references the original analyzer comes
    back. *)
Theorem json_reload (flow_set : list (Path Node)) (vehicle_capacity : Qc)
    (matrix_df : gmap (Node * Node) MatrixRow)
    (offices_df : option (list (Node * OfficeRow)))
    (s : Solution Node) (log : Log Node) :
  Solution_init flow_set vehicle_capacity matrix_df offices_df = Ok (s, log) →
  flow_set ≠ [] →
  (∀ capacity' matrix' offices',
     load_from_json (Some (save_to_json s)) capacity' matrix' offices'
     = JsonDone (Solution_init flow_set capacity' matrix' offices'))
  ∧ load_from_json (Some (save_to_json s)) vehicle_capacity matrix_df offices_df
    = JsonDone (Ok (s, log)).
Proof.
  intros Hinit Hne.
  assert (paths s = flow_set) as Hpaths
    by (by apply Solution_init_inv in Hinit as [-> _]).
  assert (∀ capacity' matrix' offices',
     load_from_json (Some (save_to_json s)) capacity' matrix' offices'
     = JsonDone (Solution_init flow_set capacity' matrix' offices')) as Hload.
  { intros capacity' matrix' offices'. unfold load_from_json, save_to_json.
    simpl. rewrite Hpaths. by destruct flow_set. }
  split; [done|]. by rewrite Hload, Hinit.
Qed.

End JsonExtras.

(** ** load_from_csv *)

Lemma edges_elements {Node} (nodes : list Node) (e : Node * Node) :
  e ∈ edges nodes → e.1 ∈ nodes ∧ e.2 ∈ nodes.
Proof.
  induction nodes as [|a [|b rest] IH]; [by intros ?%not_elem_of_nil..|].
  change (edges (a :: b :: rest)) with ((a, b) :: edges (b :: rest)).
  intros [->|Hin]%elem_of_cons.
  - simpl. split; [left|right; left].
  - destruct (IH Hin). split; by right.
Qed.

Lemma str_items_str (text : string) (k : PyKey) :
  k ∈ str_items text → ∃ item, k = KStr item.
Proof.
  unfold str_items. intros (c & -> & _)%list_elem_of_fmap. eauto.
Qed.

(** X16. [load_from_csv] never reconstructs a leg.  It hands the
    [path_nodes] cell to the constructor as the [str] it read, so the edges
    are pairs of characters, which an edge reference indexed by office
    numbers does not have: for every table and every vehicle capacity the
    analyzer is constructed with an empty leg map, no vehicle and no
    transport cost, while the flow volumes are still summed.  A missing file
    raises [ValueError]. *)
Theorem load_from_csv_no_legs (rows : list (PathRow PyKey string))
    (vehicle_capacity : Qc) (matrix_df : gmap (PyKey * PyKey) MatrixRow)
    (offices_df : option (list (PyKey * OfficeRow))) :
  (∀ item item', matrix_df !! (KStr item, KStr item') = None) →
  (∃ s log,
     load_from_csv (Some rows) vehicle_capacity matrix_df offices_df = Ok (s, log)
     ∧ transport_legs s = ∅
     ∧ total_vehicles s = 0%Z
     ∧ total_distance s = 0
     ∧ transport_cost s = 0
     ∧ total_volume s = Qcsum (row_volume <$> rows))
  ∧ load_from_csv None vehicle_capacity matrix_df offices_df = Raise ValueError.
Proof.
  intros Hmatrix. split; [|done]. unfold load_from_csv.
  assert ((accumulate_legs matrix_df (csv_record <$> rows)).1 = ∅) as Hlegs.
  { apply map_eq. intros key. rewrite accumulate_legs_lookup, lookup_empty.
    destruct (contributions key (csv_record <$> rows)) as [|req l] eqn:Hc; [done|].
    assert (matrix_df !! key = None) as ->; [|done].
    assert (req ∈ contributions key (csv_record <$> rows)) as Hin
      by (rewrite Hc; left).
    unfold contributions in Hin.
    apply list_elem_of_bind in Hin as (path & Hreq & Hpath).
    apply list_elem_of_fmap in Hpath as (row & -> & _).
    unfold path_contributions in Hreq.
    apply list_elem_of_fmap in Hreq as (e & _ & He).
    apply list_elem_of_filter in He as [-> He].
    apply edges_elements in He as [H1 H2]. simpl in H1, H2.
    apply str_items_str in H1 as [item Hitem].
    apply str_items_str in H2 as [item' Hitem'].
    destruct key as [a b]. simpl in *. subst. apply Hmatrix. }
  exists (metrics (csv_record <$> rows) vehicle_capacity matrix_df offices_df ∅
            (_reconstruct_reqs_from_paths (csv_record <$> rows))),
         (unresolved_edges matrix_df (csv_record <$> rows)).
  split.
  - destruct (decide (vehicle_capacity = 0)) as [->|Hcap].
    + rewrite Solution_init_zero. by rewrite decide_True.
    + rewrite Solution_init_ok by done. by rewrite Hlegs, fmap_empty.
  - unfold metrics.
    cbn [transport_legs total_vehicles total_distance transport_cost total_volume].
    rewrite !values_empty, <-list_fmap_compose. done.
Qed.

(** ** format_time *)

(** Linear goals over [Qc], read in [Q]. *)
Ltac qc_lra :=
  unfold Qcle, Qclt, Qcminus, Qcopp, Qcplus, Qcmult, Q2Qc, Qc_of_Z in *;
  cbn [this] in *; rewrite ?Qred_correct in *;
  change (inject_Z (24 * 3600)) with (86400 # 1)%Q in *;
  change (inject_Z 3600) with (3600 # 1)%Q in *;
  change (inject_Z 60) with (60 # 1)%Q in *;
  change (inject_Z 1) with 1%Q in *;
  change (inject_Z 0) with 0%Q in *;
  lra.

Lemma Qcdiv_mult_cancel (a b : Qc) : 0 < b → a / b * b = a.
Proof.
  intros Hb. field. intros Hzero. rewrite Hzero in Hb.
  by apply Qclt_not_eq in Hb.
Qed.

Lemma floordiv_spec (a b : Qc) :
  0 < b →
  Qc_of_Z (floordiv a b) * b ≤ a ∧ a < (Qc_of_Z (floordiv a b) + 1) * b.
Proof.
  intros Hb. unfold floordiv. split.
  - rewrite <-(Qcdiv_mult_cancel a b Hb) at 2.
    apply Qcmult_le_mono_pos_r; [done|]. apply (Qfloor_le (this (a / b))).
  - rewrite <-(Qcdiv_mult_cancel a b Hb) at 1.
    apply Qcmult_lt_mono_pos_r; [done|].
    rewrite <-Z2Qc_inj_1, <-Z2Qc_inj_add. apply (Qlt_floor (this (a / b))).
Qed.

Lemma pymod_bounds (a b : Qc) : 0 < b → 0 ≤ pymod a b ∧ pymod a b < b.
Proof.
  intros Hb. destruct (floordiv_spec a b Hb) as [Hlo Hhi].
  unfold pymod. split; qc_lra.
Qed.

Lemma floordiv_range (a b : Qc) (n : Z) :
  0 < b → 0 ≤ a → a < Qc_of_Z n * b → (0 ≤ floordiv a b < n)%Z.
Proof.
  intros Hb Ha Hn. destruct (floordiv_spec a b Hb) as [Hlo Hhi]. split.
  - apply (Qfloor_resp_le 0 (this (a / b))). by apply Qcdiv_nonneg.
  - apply Z2Qc_inj_lt. apply (Qcmult_lt_mono_pos_r _ _ b Hb).
    by eapply Qcle_lt_trans.
Qed.

Lemma floordiv_nonneg (a b : Qc) : 0 < b → 0 ≤ a → (0 ≤ floordiv a b)%Z.
Proof.
  intros Hb Ha. apply (Qfloor_resp_le 0 (this (a / b))). by apply Qcdiv_nonneg.
Qed.

(** The days, hours and minutes of a time that is not negative. *)
Lemma format_time_components (seconds : Qc) :
  0 ≤ seconds →
  let days := floordiv seconds (Qc_of_Z (24 * 3600)) in
  let rest := pymod seconds (Qc_of_Z (24 * 3600)) in
  let hours := floordiv rest (Qc_of_Z 3600) in
  let rest' := pymod rest (Qc_of_Z 3600) in
  let minutes := floordiv rest' (Qc_of_Z 60) in
  (0 ≤ days)%Z ∧ (0 ≤ hours < 24)%Z ∧ (0 ≤ minutes < 60)%Z
  ∧ Qc_of_Z (days * 86400 + hours * 3600 + minutes * 60) ≤ seconds
  ∧ seconds < Qc_of_Z (days * 86400 + hours * 3600 + minutes * 60 + 60).
Proof.
  intros Hs days rest hours rest' minutes.
  assert (0 < Qc_of_Z (24 * 3600)) as Hday by (by apply Qc_of_Z_pos).
  assert (0 < Qc_of_Z 3600) as Hhour by (by apply Qc_of_Z_pos).
  assert (0 < Qc_of_Z 60) as Hmin by (by apply Qc_of_Z_pos).
  destruct (pymod_bounds seconds _ Hday) as [Hr0 Hr1]. fold rest in Hr0, Hr1.
  destruct (pymod_bounds rest _ Hhour) as [Hr2 Hr3]. fold rest' in Hr2, Hr3.
  destruct (pymod_bounds rest' _ Hmin) as [Hr4 Hr5].
  assert (0 ≤ days)%Z as Hd by (by apply floordiv_nonneg).
  assert (0 ≤ hours < 24)%Z as Hh.
  { apply floordiv_range; [done..|].
    assert (Qc_of_Z 24 * Qc_of_Z 3600 = Qc_of_Z (24 * 3600)) as ->
      by (by rewrite <-Z2Qc_inj_mul).
    done. }
  assert (0 ≤ minutes < 60)%Z as Hm.
  { apply floordiv_range; [done..|].
    assert (Qc_of_Z 60 * Qc_of_Z 60 = Qc_of_Z 3600) as ->
      by (by rewrite <-Z2Qc_inj_mul).
    done. }
  split; [done|]. split; [done|]. split; [done|].
  assert (Qc_of_Z (days * 86400 + hours * 3600 + minutes * 60)
          = Qc_of_Z (24 * 3600) * Qc_of_Z days + Qc_of_Z 3600 * Qc_of_Z hours
            + Qc_of_Z 60 * Qc_of_Z minutes) as Htotal.
  { remember (Qc_of_Z (24 * 3600)) as day eqn:Hdayeq.
    rewrite !Z2Qc_inj_add, !Z2Qc_inj_mul.
    change (Qc_of_Z 86400) with (Qc_of_Z (24 * 3600)). rewrite <-Hdayeq. ring. }
  rewrite (Z2Qc_inj_add _ 60), Htotal.
  unfold pymod in Hr4, Hr5. fold minutes in Hr4, Hr5.
  unfold rest', pymod in Hr4, Hr5. fold hours in Hr4, Hr5.
  unfold rest, pymod in Hr4, Hr5. fold days in Hr4, Hr5.
  clear Hr0 Hr1 Hr2 Hr3 Htotal Hd Hh Hm Hday Hhour Hmin Hs.
  clearbody minutes hours days. clear rest' rest.
  remember (Qc_of_Z (24 * 3600) * Qc_of_Z days + Qc_of_Z 3600 * Qc_of_Z hours
            + Qc_of_Z 60 * Qc_of_Z minutes) as total eqn:Htotal.
  assert (seconds - Qc_of_Z (24 * 3600) * Qc_of_Z days
          - Qc_of_Z 3600 * Qc_of_Z hours - Qc_of_Z 60 * Qc_of_Z minutes
          = seconds + - total) as Hrest by (subst total; ring).
  rewrite Hrest in Hr4, Hr5. split.
  - by apply Qcle_minus_iff.
  - apply Qclt_minus_iff. apply Qclt_minus_iff in Hr5.
    assert (total + Qc_of_Z 60 + - seconds = Qc_of_Z 60 + - (seconds + - total))
      as -> by ring.
    done.
Qed.

(** X17. A formatted time always has a part, and at most one for each of
    days, hours and minutes, in that order.  For a time that is not
    negative, days and hours are listed only when positive, hours are below
    24 and minutes below 60; below one minute the text is the single part
    "0 minutes". *)
Theorem format_time_parts (seconds : Qc) :
  format_time seconds ≠ []
  ∧ (format_time seconds).*2 `sublist_of` [Days; Hours; Minutes]
  ∧ (0 ≤ seconds →
     Forall (λ part, match part.2 with
                     | Days => (1 ≤ part.1)%Z
                     | Hours => (1 ≤ part.1 < 24)%Z
                     | Minutes => (0 ≤ part.1 < 60)%Z
                     end) (format_time seconds))
  ∧ (0 ≤ seconds → seconds < Qc_of_Z 60 → format_time seconds = [(0%Z, Minutes)]).
Proof.
  split; [|split; [|split]].
  - unfold format_time. repeat case_decide; simpl; try done.
    match goal with Hno : ¬ (_ ∨ _) |- _ => destruct Hno end. by right.
  - unfold format_time. repeat case_decide; simpl;
      repeat (first [apply sublist_nil | apply sublist_skip | apply sublist_cons]).
  - intros Hs.
    destruct (format_time_components seconds Hs) as (Hd & Hh & Hm & _).
    unfold format_time.
    repeat case_decide; repeat constructor; simpl; lia.
  - intros Hs Hlt.
    destruct (format_time_components seconds Hs) as (Hd & Hh & Hm & Hlo & Hhi).
    assert (Qc_of_Z (floordiv seconds (Qc_of_Z (24 * 3600)) * 86400
                     + floordiv (pymod seconds (Qc_of_Z (24 * 3600))) (Qc_of_Z 3600)
                       * 3600
                     + floordiv (pymod (pymod seconds (Qc_of_Z (24 * 3600)))
                                   (Qc_of_Z 3600)) (Qc_of_Z 60) * 60)
            < Qc_of_Z 60) as Hsum by (by eapply Qcle_lt_trans).
    apply Z2Qc_inj_lt in Hsum.
    unfold format_time.
    repeat case_decide; simpl; try lia.
    + do 2 f_equal. lia.
    + exfalso. match goal with Hno : ¬ (_ ∨ _) |- _ => apply Hno end.
      by right.
Qed.

(** X18. The parts of a formatted time stand for the time cut to the whole
    minute: for a time that is not negative, the seconds of the listed days,
    hours and minutes are at most the time and less than a minute short of
    it. *)
Theorem format_time_value (seconds : Qc) :
  0 ≤ seconds →
  Qc_of_Z (parts_seconds (format_time seconds)) ≤ seconds
  ∧ seconds < Qc_of_Z (parts_seconds (format_time seconds) + 60).
Proof.
  intros Hs.
  destruct (format_time_components seconds Hs) as (Hd & Hh & Hm & Hlo & Hhi).
  assert (parts_seconds (format_time seconds)
          = (floordiv seconds (Qc_of_Z (24 * 3600)) * 86400
             + floordiv (pymod seconds (Qc_of_Z (24 * 3600))) (Qc_of_Z 3600) * 3600
             + floordiv (pymod (pymod seconds (Qc_of_Z (24 * 3600)))
                           (Qc_of_Z 3600)) (Qc_of_Z 60) * 60)%Z) as ->.
  { unfold format_time, parts_seconds.
    repeat case_decide; simpl; unfold part_seconds; simpl; try lia;
      naive_solver lia. }
  done.
Qed.

(** ** The order of the flows *)

Lemma perm_nil_iff {A} (l l' : list A) : l ≡ₚ l' → l = [] ↔ l' = [].
Proof.
  intros Hperm. split; intros ->.
  - by apply Permutation_nil_l in Hperm.
  - by apply Permutation_nil_r in Hperm.
Qed.

Section Order.
Context {Node : Type} `{Countable Node}.
Implicit Types (path : Path Node) (paths : list (Path Node)).
Implicit Types (key : Node * Node) (matrix_df : gmap (Node * Node) MatrixRow).
Implicit Types (offices_df : option (list (Node * OfficeRow))).

Lemma contributions_perm paths paths' key :
  paths ≡ₚ paths' → contributions key paths ≡ₚ contributions key paths'.
Proof. intros Hperm. unfold contributions. by rewrite Hperm. Qed.

Lemma legs_empty_perm paths paths' matrix_df :
  paths ≡ₚ paths' →
  (accumulate_legs matrix_df paths).1 = ∅ →
  (accumulate_legs matrix_df paths').1 = ∅.
Proof.
  intros Hperm Hempty. apply map_eq. intros key.
  pose proof (f_equal (λ m, m !! key) Hempty) as Hkey. simpl in Hkey.
  rewrite lookup_empty in *. rewrite accumulate_legs_lookup in *.
  pose proof (perm_nil_iff _ _ (contributions_perm paths paths' key Hperm)) as Hnil.
  destruct (contributions key paths) as [|req l],
           (contributions key paths') as [|req' l']; try done.
  - exfalso. discriminate (proj1 Hnil eq_refl).
  - by destruct (matrix_df !! key).
Qed.

Lemma request_keys_perm paths paths' :
  paths ≡ₚ paths' →
  (list_to_set (request_keys paths') : gset (Node * Node))
  = list_to_set (request_keys paths).
Proof.
  intros Hperm. apply list_to_set_perm_L. unfold request_keys. by rewrite Hperm.
Qed.

(** X19. What does not depend on the order of the flows: a permuted flow set
    is analyzed whenever the original is, with the same request keys, the
    same edges resolved to legs, on every leg the same distance, time and
    tariff and the same requests up to their order, the same log lines up to
    their order, and the same [paths_per_req].  The sums, whose additions
    follow the order of the flows, are left out. *)
Theorem flow_order_structure paths paths' (vehicle_capacity : Qc) matrix_df
    offices_df (s : Solution Node) (log : Log Node) :
  paths ≡ₚ paths' →
  Solution_init paths vehicle_capacity matrix_df offices_df = Ok (s, log) →
  ∃ s' log',
    Solution_init paths' vehicle_capacity matrix_df offices_df = Ok (s', log')
    ∧ log' ≡ₚ log
    ∧ (dom (reqs s') : gset (Node * Node)) = dom (reqs s)
    ∧ (∀ key,
         match transport_legs s' !! key, transport_legs s !! key with
         | Some leg', Some leg =>
             distance leg' = distance leg
             ∧ time leg' = time leg
             ∧ cost_per_km leg' = cost_per_km leg
             ∧ leg_reqs leg' ≡ₚ leg_reqs leg
         | None, None => True
         | _, _ => False
         end)
    ∧ paths_per_req s' = paths_per_req s.
Proof.
  intros Hperm Hinit.
  exists (metrics paths' vehicle_capacity matrix_df offices_df
            (with_vehicles vehicle_capacity <$> (accumulate_legs matrix_df paths').1)
            (_reconstruct_reqs_from_paths paths')),
         (unresolved_edges matrix_df paths').
  split.
  { destruct (decide (vehicle_capacity = 0)) as [->|Hcap].
    - rewrite Solution_init_zero in *. case_decide as Hempty; [|done].
      rewrite decide_True by (by eapply legs_empty_perm).
      by rewrite (legs_empty_perm _ _ _ Hperm Hempty), fmap_empty.
    - by apply Solution_init_ok. }
  apply Solution_init_inv in Hinit as [-> ->].
  split; [unfold unresolved_edges; by rewrite Hperm|].
  unfold metrics. cbn [reqs transport_legs paths_per_req].
  split; [by rewrite !reqs_dom, (request_keys_perm _ _ Hperm)|].
  split.
  - intros key. rewrite !lookup_fmap, !accumulate_legs_lookup.
    pose proof (contributions_perm paths paths' key Hperm) as Hc.
    pose proof (perm_nil_iff _ _ Hc) as Hnil.
    destruct (contributions key paths) as [|req l],
             (contributions key paths') as [|req' l']; try done.
    + exfalso. discriminate (proj1 Hnil eq_refl).
    + exfalso. discriminate (proj2 Hnil eq_refl).
    + destruct (matrix_df !! key) as [row|]; [|done].
      simpl. by rewrite Hc.
  - assert (length paths' = length paths) as -> by (by rewrite Hperm).
    assert (_reconstruct_reqs_from_paths paths' = ∅
            ↔ _reconstruct_reqs_from_paths paths = ∅) as Hempty.
    { rewrite !reqs_empty. symmetry. by apply perm_nil_iff. }
    rewrite !reqs_size, (request_keys_perm _ _ Hperm).
    destruct (decide (_reconstruct_reqs_from_paths paths = ∅)) as [Hnil|Hne].
    + rewrite !decide_False; [done| |]; intros Hne; apply Hne; [done|].
      by apply Hempty.
    + rewrite !decide_True; [done|done|]. intros Hnil. by apply Hne, Hempty.
Qed.

End Order.

(** ** Underloaded legs *)

Section Underload.
Context {Node : Type} `{Countable Node}.

Lemma ceil_le_1 (q : Qc) : q ≤ 1 → (ceil q ≤ 1)%Z.
Proof. intros Hq. apply (Qceiling_resp_le (this q) 1 Hq). Qed.

Lemma Qcdiv_le_1 (a b : Qc) : 0 < b → a ≤ b → a / b ≤ 1.
Proof.
  intros Hb Hab.
  assert (1 = b / b) as ->.
  { field. intros Hzero. rewrite Hzero in Hb. by apply Qclt_not_eq in Hb. }
  apply Qcmult_le_mono_nonneg_r; [by apply Qclt_le_weak, Qcinv_pos|done].
Qed.

(** X20. The count of underloaded legs is at most the number of legs, and
    for a positive vehicle capacity a leg whose volume is below the threshold
    of 0.3 times the capacity runs at most one vehicle. *)
Theorem underloaded_legs_one_vehicle (paths : list (Path Node))
    (vehicle_capacity : Qc) (matrix_df : gmap (Node * Node) MatrixRow)
    (offices_df : option (list (Node * OfficeRow)))
    (s : Solution Node) (log : Log Node) :
  Solution_init paths vehicle_capacity matrix_df offices_df = Ok (s, log) →
  (underloaded_legs s ≤ size (transport_legs s))%nat
  ∧ (0 < vehicle_capacity →
     ∀ key leg,
       transport_legs s !! key = Some leg →
       sum_volume leg < dec 3 1 * vehicle_capacity →
       (vehicles leg ≤ 1)%Z).
Proof.
  intros Hinit. apply Solution_init_inv in Hinit as [-> _]. split.
  - unfold metrics. cbn [underloaded_legs transport_legs].
    unfold count_underloaded_legs. etrans; [apply length_filter|].
    unfold values. by rewrite length_fmap, length_map_to_list.
  - intros Hcap key leg. unfold metrics. cbn [transport_legs].
    rewrite lookup_fmap.
    destruct (_ !! key) as [acc|]; [|done]. simpl. intros [= <-]. simpl.
    intros Hlow. apply ceil_le_1, Qcdiv_le_1; [done|].
    apply Qclt_le_weak. eapply Qclt_le_trans; [exact Hlow|].
    rewrite <-(Qcmult_1_l vehicle_capacity) at 2.
    apply Qcmult_le_mono_nonneg_r; [by apply Qclt_le_weak|]. by vm_compute.
Qed.

End Underload.

(** ** Instances of the further properties *)

Lemma leg_map_entries_witness :
  ∃ s log,
    Solution_init [flow13 (Qc_of_Z 91)] (Qc_of_Z 90) matrix12 None = Ok (s, log)
    ∧ (is_Some (transport_legs s !! (2, 3)%Z)
       ↔ is_Some (matrix12 !! (2, 3)%Z)
         ∧ ∃ path, path ∈ [flow13 (Qc_of_Z 91)]
                   ∧ (2, 3)%Z ∈ edges (path_nodes path)).
Proof.
  destruct (Solution_init [flow13 (Qc_of_Z 91)] (Qc_of_Z 90) matrix12 None)
    as [[s log]|e] eqn:Hinit; [|by vm_compute in Hinit].
  exists s, log. split; [done|].
  exact (proj1 (leg_map_entries _ _ _ _ s log (2, 3)%Z Hinit)).
Defined.

Lemma edge_uses_accounted_witness :
  ∃ s log,
    Solution_init [flow13 (Qc_of_Z 91)] (Qc_of_Z 90) matrix12 None = Ok (s, log)
    ∧ (sum_list_with (λ leg, length (leg_reqs leg)) (values (transport_legs s))
       + length log
       = sum_list_with (λ path : Path Z, length (path_nodes path) - 1)
           [flow13 (Qc_of_Z 91)])%nat.
Proof.
  destruct (Solution_init [flow13 (Qc_of_Z 91)] (Qc_of_Z 90) matrix12 None)
    as [[s log]|e] eqn:Hinit; [|by vm_compute in Hinit].
  exists s, log. split; [done|].
  exact (edge_uses_accounted _ _ _ _ s log Hinit).
Defined.

Lemma transfer_cost_sum_witness :
  ∃ s log,
    Solution_init [flow13 (Qc_of_Z 15)] (Qc_of_Z 90) matrix12 (Some offices2)
      = Ok (s, log)
    ∧ transfer_cost s
      = Qcsum ([flow13 (Qc_of_Z 15)] ≫= λ path,
                 (λ node, match office_row offices2 node with
                          | Some row => volume path * transfer_price row
                          | None => 0
                          end)
                   <$> transit_nodes (path_nodes path)).
Proof.
  destruct (Solution_init [flow13 (Qc_of_Z 15)] (Qc_of_Z 90) matrix12
              (Some offices2)) as [[s log]|e] eqn:Hinit; [|by vm_compute in Hinit].
  exists s, log. split; [done|].
  exact (transfer_cost_sum _ _ _ _ s log Hinit).
Defined.

Lemma capacity_findings_paired_witness :
  ∃ s log,
    Solution_init [flow13 (Qc_of_Z 15)] (Qc_of_Z 90) matrix12 (Some offices2)
      = Ok (s, log)
    ∧ length (transfer_violations s)
      = (2 * length (filter (λ v, v_direction v = Inbound)
                       (transfer_violations s)))%nat.
Proof.
  destruct (Solution_init [flow13 (Qc_of_Z 15)] (Qc_of_Z 90) matrix12
              (Some offices2)) as [[s log]|e] eqn:Hinit; [|by vm_compute in Hinit].
  exists s, log. split; [done|].
  exact (proj2 (capacity_findings_paired _ _ _ _ s log Hinit)).
Defined.

Lemma direct_flows_no_transfer_witness :
  Forall (λ path : Path Z, (length (path_nodes path) ≤ 2)%nat)
         [flow12 (Qc_of_Z 15)]
  ∧ ∃ s log,
      Solution_init [flow12 (Qc_of_Z 15)] (Qc_of_Z 90) matrix12 (Some offices2)
        = Ok (s, log)
      ∧ transfer_cost s = 0 ∧ transfer_violations s = []
      ∧ total_cost s = transport_cost s.
Proof.
  assert (Forall (λ path : Path Z, (length (path_nodes path) ≤ 2)%nat)
            [flow12 (Qc_of_Z 15)]) as Hdirect by (by repeat constructor).
  split; [done|].
  destruct (Solution_init [flow12 (Qc_of_Z 15)] (Qc_of_Z 90) matrix12
              (Some offices2)) as [[s log]|e] eqn:Hinit; [|by vm_compute in Hinit].
  exists s, log. split; [done|].
  exact (direct_flows_no_transfer _ _ _ _ s log Hdirect Hinit).
Defined.

Lemma request_aggregates_witness :
  _reconstruct_reqs_from_paths [flow13 (Qc_of_Z 15); flow13 (Qc_of_Z 5)]
    !! (1, 3)%Z = Some (Qc_of_Z 20)
  ∧ Qc_of_Z 20
    = Qcsum (volume <$> filter (λ path : Path Z, (src path, dst path) = (1, 3)%Z)
                          [flow13 (Qc_of_Z 15); flow13 (Qc_of_Z 5)]).
Proof.
  assert (_reconstruct_reqs_from_paths [flow13 (Qc_of_Z 15); flow13 (Qc_of_Z 5)]
            !! (1, 3)%Z = Some (Qc_of_Z 20)) as Hreq.
  { vm_compute. f_equal. qc_eq. }
  split; [done|].
  exact (proj2 (request_aggregates _ (1, 3)%Z) _ Hreq).
Defined.

Lemma paths_per_req_at_least_one_witness :
  [flow13 (Qc_of_Z 15); flow13 (Qc_of_Z 5)] ≠ []
  ∧ ∃ s log,
      Solution_init [flow13 (Qc_of_Z 15); flow13 (Qc_of_Z 5)] (Qc_of_Z 90)
        matrix12 None = Ok (s, log)
      ∧ 1 ≤ paths_per_req s.
Proof.
  split; [discriminate|].
  destruct (Solution_init [flow13 (Qc_of_Z 15); flow13 (Qc_of_Z 5)] (Qc_of_Z 90)
              matrix12 None) as [[s log]|e] eqn:Hinit; [|by vm_compute in Hinit].
  exists s, log. split; [done|].
  apply (proj1 (proj2 (paths_per_req_at_least_one _ _ _ _ s log Hinit))).
  discriminate.
Defined.

Lemma coverage_of_own_requests_witness :
  ∃ s log,
    Solution_init [flow13 (Qc_of_Z 15); flow13 (Qc_of_Z 5)] (Qc_of_Z 90)
      matrix12 None = Ok (s, log)
    ∧ validate_coverage s (map_to_list (reqs s)) = [].
Proof.
  destruct (Solution_init [flow13 (Qc_of_Z 15); flow13 (Qc_of_Z 5)] (Qc_of_Z 90)
              matrix12 None) as [[s log]|e] eqn:Hinit; [|by vm_compute in Hinit].
  exists s, log. split; [done|].
  exact (coverage_of_own_requests _ _ _ _ s log Hinit).
Defined.

Lemma coverage_only_listed_requests_witness :
  ∃ s log,
    Solution_init [flow13 (dec 499 1)] (Qc_of_Z 90) matrix12 None = Ok (s, log)
    ∧ (length (validate_coverage s [((1, 3)%Z, Qc_of_Z 50)]) ≤ 1)%nat.
Proof.
  destruct (Solution_init [flow13 (dec 499 1)] (Qc_of_Z 90) matrix12 None)
    as [[s log]|e] eqn:Hinit; [|by vm_compute in Hinit].
  exists s, log. split; [done|].
  exact (proj2 (coverage_only_listed_requests s [((1, 3)%Z, Qc_of_Z 50)])).
Defined.

Lemma loader_rechains_legs_witness :
  flow_path (gap13 (Qc_of_Z 91)) = flow_path (ext13 (Qc_of_Z 91))
  ∧ ∃ path, flow_path (gap13 (Qc_of_Z 91)) = Ok path
            ∧ length (path_nodes path) = 3%nat.
Proof.
  split.
  - by apply (proj2 (loader_rechains_legs (ext13 (Qc_of_Z 91)))).
  - destruct (flow_path (gap13 (Qc_of_Z 91))) as [path|e] eqn:Hpath;
      [|by vm_compute in Hpath].
    exists path. split; [done|].
    exact (proj1 (proj1 (loader_rechains_legs (gap13 (Qc_of_Z 91))) path Hpath)).
Defined.

Lemma flat_row_outcome_witness :
  literal_eval (row_path_nodes literal_row) = Ok [1; 2; 3]%Z
  ∧ row_flow literal_eval literal_row ≫= flow_path
    = Ok {| src := 1%Z; dst := 3%Z; volume := Qc_of_Z 91;
            path_nodes := [1; 2; 3]%Z |}.
Proof.
  assert (literal_eval (row_path_nodes literal_row) = Ok [1; 2; 3]%Z) as Heval
    by done.
  split; [done|].
  exact (flat_row_outcome literal_eval literal_row [1; 2; 3]%Z Heval).
Defined.

Lemma json_reload_witness :
  [flow13 (Qc_of_Z 91)] ≠ []
  ∧ ∃ s log,
      Solution_init [flow13 (Qc_of_Z 91)] (Qc_of_Z 90) matrix12 None = Ok (s, log)
      ∧ load_from_json (Some (save_to_json s)) (Qc_of_Z 90) matrix12 None
        = JsonDone (Ok (s, log)).
Proof.
  assert ([flow13 (Qc_of_Z 91)] ≠ []) as Hne by discriminate.
  split; [done|].
  destruct (Solution_init [flow13 (Qc_of_Z 91)] (Qc_of_Z 90) matrix12 None)
    as [[s log]|e] eqn:Hinit; [|by vm_compute in Hinit].
  exists s, log. split; [done|].
  exact (proj2 (json_reload _ _ _ _ s log Hinit Hne)).
Defined.

Lemma load_from_csv_no_legs_witness :
  (∀ item item', key_matrix !! (KStr item, KStr item') = None)
  ∧ ∃ s log,
      load_from_csv (Some csv_rows) (Qc_of_Z 90) key_matrix None = Ok (s, log)
      ∧ transport_legs s = ∅
      ∧ total_vehicles s = 0%Z
      ∧ total_distance s = 0
      ∧ transport_cost s = 0
      ∧ total_volume s = Qcsum (row_volume <$> csv_rows).
Proof.
  assert (∀ item item', key_matrix !! (KStr item, KStr item') = None) as Hkeys.
  { intros item item'. by apply lookup_singleton_ne. }
  split; [done|].
  exact (proj1 (load_from_csv_no_legs csv_rows (Qc_of_Z 90) key_matrix None Hkeys)).
Defined.

Lemma format_time_parts_witness :
  0 ≤ Qc_of_Z 3725
  ∧ Forall (λ part, match part.2 with
                    | Days => (1 ≤ part.1)%Z
                    | Hours => (1 ≤ part.1 < 24)%Z
                    | Minutes => (0 ≤ part.1 < 60)%Z
                    end) (format_time (Qc_of_Z 3725)).
Proof.
  assert (0 ≤ Qc_of_Z 3725) as Hs by qc_le.
  split; [done|].
  exact (proj1 (proj2 (proj2 (format_time_parts (Qc_of_Z 3725)))) Hs).
Defined.

Lemma format_time_value_witness :
  0 ≤ Qc_of_Z 3725
  ∧ Qc_of_Z (parts_seconds (format_time (Qc_of_Z 3725))) ≤ Qc_of_Z 3725
  ∧ Qc_of_Z 3725 < Qc_of_Z (parts_seconds (format_time (Qc_of_Z 3725)) + 60).
Proof.
  assert (0 ≤ Qc_of_Z 3725) as Hs by qc_le.
  split; [done|].
  exact (format_time_value (Qc_of_Z 3725) Hs).
Defined.

Lemma flow_order_structure_witness :
  [flow13 (Qc_of_Z 15); flow12 (Qc_of_Z 5)]
    ≡ₚ [flow12 (Qc_of_Z 5); flow13 (Qc_of_Z 15)]
  ∧ ∃ s log s' log',
      Solution_init [flow13 (Qc_of_Z 15); flow12 (Qc_of_Z 5)] (Qc_of_Z 90)
        matrix12 (Some offices2) = Ok (s, log)
      ∧ Solution_init [flow12 (Qc_of_Z 5); flow13 (Qc_of_Z 15)] (Qc_of_Z 90)
          matrix12 (Some offices2) = Ok (s', log')
      ∧ log' ≡ₚ log
      ∧ (dom (reqs s') : gset (Z * Z)) = dom (reqs s)
      ∧ paths_per_req s' = paths_per_req s.
Proof.
  assert ([flow13 (Qc_of_Z 15); flow12 (Qc_of_Z 5)]
            ≡ₚ [flow12 (Qc_of_Z 5); flow13 (Qc_of_Z 15)]) as Hperm
    by apply perm_swap.
  split; [done|].
  destruct (Solution_init [flow13 (Qc_of_Z 15); flow12 (Qc_of_Z 5)] (Qc_of_Z 90)
              matrix12 (Some offices2)) as [[s log]|e] eqn:Hinit;
    [|by vm_compute in Hinit].
  destruct (flow_order_structure _ _ _ _ _ s log Hperm Hinit)
    as (s' & log' & Hinit' & Hlog & Hreqs & _ & Hper).
  exists s, log, s', log'. done.
Defined.

Lemma underloaded_legs_one_vehicle_witness :
  ∃ s log,
    Solution_init [flow13 (Qc_of_Z 15)] (Qc_of_Z 90) matrix12 None = Ok (s, log)
    ∧ (underloaded_legs s ≤ size (transport_legs s))%nat.
Proof.
  destruct (Solution_init [flow13 (Qc_of_Z 15)] (Qc_of_Z 90) matrix12 None)
    as [[s log]|e] eqn:Hinit; [|by vm_compute in Hinit].
  exists s, log. split; [done|].
  exact (proj1 (underloaded_legs_one_vehicle _ _ _ _ s log Hinit)).
Defined.
